(* ===== verification/_CoqProject ===== *)
-Q . S2P
Spec2Rocq.v
GoFmt.v
Json.v
JsonDecode.v
UrlValues.v
Http.v
Token.v
Body.v
Race.v
Calls.v
