(* ===== verification/Spec2Rocq.v ===== *)
(** * A verification development of go-baiduai's request dispatcher

    ** The program

    go-baiduai is a thin client for Baidu's AI HTTP API.  Its only source
    file, src/body/body.go, defines the response envelope [BaseReply]
    ([error_code], [log_id], [error_msg]), the [Reply] that embeds it with
    an empty interface for the endpoint's payload, and the dispatcher
    [Body], which holds a token object of the package [lib] and has two
    handlers: [PostJson] obtains a token ([SetAccessToken]), posts JSON to
    [url?access_token=<token>], reads the body, [json.Unmarshal]s it into
    the caller's [*Reply] and turns a non-zero [ErrorCode] into
    [errors.New("%d:%s")]; [PostForm] obtains a token, [Add]s it to the
    caller's [url.Values], posts the form and unmarshals the answer into
    the caller's value without looking at the envelope.  [checkErr]
    performs the envelope check on its own but nothing calls it.

    ** Files

    - Spec2Rocq.v (this file): the shared prelude: Go's [int64] range and
      wrap-around, Go's [error] values ([go_error]), results and the
      state/error monad [ST] in which a Go function returning [error] is a
      computation over the memory it writes ([with_stack] is
      [return errors.WithStack(err)], [defer] runs a deferred call on
      every return) and the tactic [case_ifs].
    - GoFmt.v, Module [GoFmt]: [strconv.ParseInt(s,10,64)], the [%d] verb
      ([FormatInt]) and the message [fmt.Sprintf("%d:%s")] (body.go 63, 96).
    - Json.v, Module [Json]: the JSON value tree and the parser standing for
      [json.Unmarshal]'s validity scan and literal decoding (numbers kept as
      literals, string escapes with [\u] surrogate pairs).
    - JsonDecode.v, Module [Decode]: [json.Unmarshal] into a struct of
      [int64], [string] and [interface{}] fields: exact then case-folded
      member matching, first type error saved, fields left as they were
      when a member is absent, [null] or of the wrong type.
    - UrlValues.v, Module [Values]: [url.Values] as a stdpp [gmap]; [Add],
      [QueryEscape] and [Encode] (keys sorted bytewise), and the
      receiving side of a form, [url.ParseQuery] with [QueryUnescape].
    - Http.v, Module [Http]: the network: a deterministic server function
      of the requests sent so far, a log of every request and the count of
      open response bodies ([send], [Post], [ReadAll], [Close]).
    - Token.v, Module [Token]: the token manager of [lib] (not under src/,
      modelled from the specification): the [Storage] interface as a type
      class with its law ([StorageLaws]) and an in-memory instance,
      [AccessToken], [NewToken], [SetAccessToken] (cached token while
      unexpired, else an OAuth request, the expiry [now + expires_in]
      wrapped at [int64] width, stored serialized as ["<expiry>:<token>"]).
    - Body.v, Module [Body]: the program proper: [BaseReply], [Reply] and
      its JSON field layout, [Body], [New], [PostJson], [PostForm],
      [checkErr], each handler composed from the pieces above exactly as
      body.go sequences its calls and early returns; the world a call runs
      in holds the [Body] the receiver points to, the clock and the
      network; the caller's [*Reply] and [url.Values] are state the
      handlers write.  Module [BodyExamples] runs each theorem on concrete
      inputs.
    - Race.v, Module [Race]: concurrent [PostJson] calls on one [*Body].
      Each call's token step (body.go 44-47) is a small state machine
      ([phase], [thread_step]: read the store, ask the OAuth endpoint,
      write the store and the field, read the field); a configuration is
      the phase of every call and the shared world, and [step] lets any
      call take its next step.  The split of [SetAccessToken] into
      atomic steps follows the specification ([lib] is not under src/).
      Module [RaceExamples] runs schedules.
    - Calls.v, Module [Calls]: whole concurrent [PostJson] calls.  A call
      ([call]: its [url], [v], [res] pointer and [cphase]) takes its token
      step through [Race.thread_step], then posts (line 47), then runs
      lines 51-65 ([post_tail]: read, decode into [*res], envelope check,
      the deferred [Close]) in one step.  The callers' [Reply] values are
      a heap indexed by the [res] pointers, so two calls may share one.
      [cstep] interleaves the calls; lemma [PostJson_split] shows that
      [post_tail] is the rest of [PostJson] after its post.  Module
      [CallsExamples] runs schedules.

    ** Theorems (the claims C1-C25, in Body.v unless said otherwise)

    - Functional behaviour of [PostJson] on each branch: success exactly
      when the token, the transport, the read and the decoding succeed and
      [error_code] is 0 (C1); the API error and its ["%d:%s"] message, which
      reads back to code and message (C2); token, syntax errors (C3, C4);
      the request it sends (C5).
    - Safety: the OAuth endpoint is asked at most once per call, never
      while a token is cached, and the API at most once (C6).
    - Refinement: [PostJson] is the decoding followed by [checkErr] (C7).
    - [PostForm]: never checks the envelope (C8), adds the token to the
      caller's map, which it sends form-encoded (C9); a reused map
      accumulates tokens and the second call sends both (C10); a token
      error returns before the map is touched (C11).
    - Decoding: a reused [Reply] keeps a stale [ErrorCode] (C12); payload
      members are dropped (C13); an [int64] overflow in [error_code] is
      the error returned whatever members follow, and leaves
      [ErrorCode] as it was (C14); member names match up to ASCII case
      (C15).
    - Token invariant: after the token step, the field holds the stored
      token (C16, over any storage satisfying [StorageLaws]).
    - Concurrent token steps (Race.v): however [k] calls interleave, at
      most [k] OAuth requests go out and nothing else (safety by rule
      induction, C17); calls one after another reuse the token (C18).
    - A [null] body is a silent success (C19).
    - Resources: both handlers close every response body they open, on
      every path, through [defer resp.Body.Close()] (C20).
    - The form [PostForm] sends decodes with [url.ParseQuery] to exactly
      the caller's map with the token added (C21).
    - Error paths: transport and read errors of the API call (C22).
    - Whole concurrent calls (Calls.v, by rule induction on the steps):
      however calls interleave, every body they open is closed once all
      have returned (C23); only the OAuth request and the calls' own API
      requests reach the network, at most two per call (C24); with
      distinct [res] pointers, a call that returned [nil] finds a zero
      [ErrorCode] in its [Reply] (C25).

    ** Bounds and fuel

    [int64] values are [Z] with the range [in_int64]; the one addition the
    model performs ([now + expires_in]) is wrapped with [wrap64] as Go does.
    The JSON parser's fuel is [2 * length + 2]: each call consumes a
    character or is followed by one that does, so the fuel bounds the
    depth of calls; the string scanner's fuel is the input length plus one
    (each step consumes at least one character).  Lemma [parse_fuel] shows
    that a parse consuming [c] characters gives the same result with any
    fuel of at least [c], so [json_fuel] always suffices (lemma
    [json_fuel_enough]): [json_parse] fails only on ill-formed text, which
    is what C4 relies on.  [url.ParseQuery]'s loop runs with one unit of
    fuel per byte of the query.

    ** Not modelled

    Interleaving inside lines 51-65 of a call: Calls.v runs a call's
    read, decode, check and [Close] as one step.  They touch only the
    call's own response, its [Reply] and the count of open bodies.  Go
    would let two decodes into one shared [Reply] interleave field by
    field (a data race); the model keeps whole decodes.  Concurrent
    [PostForm] calls are not modelled.  They share the same token step
    as [PostJson], plus the caller's map.  Go's nesting limit
    of 10000 in its JSON scanner is not modelled.  HTTP
    status codes and headers (never read by the code; the response model
    has none), the error [Close] returns (discarded by the code), the JSON
    parser's replacement
    of invalid UTF-8 by U+FFFD and the messages and offsets of
    [*json.SyntaxError], decoding through a pointer held in the [Interface]
    field (the model stores the generic value), persistent storage
    backends other than the in-memory one.  Go behaviours outside the
    model: [v.Add] on a nil [url.Values] panics (line 74; the map model
    has no nil map); [json.Unmarshal] into a nil [res] returns an
    [*InvalidUnmarshalError] (the model's [res] always points to a value,
    and a [res] outside the heap of Calls.v leaves the call stuck);
    [http.Post] follows redirects, while the model sends one request per
    call; a URL that does not parse makes Go send nothing, while the model
    still logs the request.  The concurrent model of Calls.v gives the
    interleavings of the token step of Race.v, which rest on the
    specification's account of [lib]. *)

From Stdlib Require Import String Ascii List ZArith Lia Bool.
Import ListNotations.

Declare Scope go_scope.
Delimit Scope go_scope with go.

(** ** Go's [int64] *)

Definition int64_min : Z := - 2 ^ 63.
Definition int64_max : Z := 2 ^ 63 - 1.

(** [in_int64 z] holds when [z] is a value of Go's [int64]. *)
Definition in_int64 (z : Z) : bool := (int64_min <=? z)%Z && (z <=? int64_max)%Z.

(** Go's [int64] addition wraps around. *)
Definition wrap64 (z : Z) : Z := ((z + 2 ^ 63) mod 2 ^ 64 - 2 ^ 63)%Z.

(** ** Go's [error] values met on the dispatcher's paths

    [ENew] is [errors.New], [EWithStack] is [errors.WithStack] of
    github.com/pkg/errors (same message, a stack attached).  The other
    constructors are the errors the libraries hand back: a transport error
    of [net/http], a read error of [ioutil.ReadAll], a [*json.SyntaxError]
    (its message and byte offset are not modelled), a
    [*json.UnmarshalTypeError] (value description, Go type, field) and the
    error of the token manager, wrapping what made the refresh fail. *)
Inductive go_error : Type :=
| ENew (msg : string)
| EWithStack (cause : go_error)
| ETransport (msg : string)
| ERead (msg : string)
| ESyntax
| EUnmarshalType (value gotype field : string)
| EToken (inner : go_error).

(** [errors.Cause]: strip the stack wrappers. *)
Fixpoint cause (e : go_error) : go_error :=
  match e with
  | EWithStack e' => cause e'
  | _ => e
  end.

(** ** Results and the state/error monad

    A Go function returning [error] is a computation over an explicit
    state [S] (the memory it may write) that ends either in [Ok] (the
    error is [nil]) or in [Err e] (an early [return e]).  The state is
    returned on both paths: what was written before the error stays
    written, as in Go. *)
Inductive result (A : Type) : Type :=
| Ok (a : A)
| Err (e : go_error).
Arguments Ok {A} a.
Arguments Err {A} e.

(** A Go [error] result of a function with no other result. *)
Definition err_of (x : result unit) : option go_error :=
  match x with
  | Ok _ => None
  | Err e => Some e
  end.

Definition of_err (e : option go_error) : result unit :=
  match e with
  | None => Ok tt
  | Some e => Err e
  end.

Definition ST (S A : Type) : Type := S -> result A * S.

Definition ret {S A} (a : A) : ST S A := fun s => (Ok a, s).

Definition bind {S A B} (m : ST S A) (k : A -> ST S B) : ST S B :=
  fun s => match m s with
           | (Ok a, s') => k a s'
           | (Err e, s') => (Err e, s')
           end.

Definition throw {S A} (e : go_error) : ST S A := fun s => (Err e, s).

Definition gets {S A} (f : S -> A) : ST S A := fun s => (Ok (f s), s).

Definition modify {S} (f : S -> S) : ST S unit := fun s => (Ok tt, f s).

(** [if err != nil { return errors.WithStack(err) }] after a call. *)
Definition with_stack {S A} (m : ST S A) : ST S A :=
  fun s => match m s with
           | (Err e, s') => (Err (EWithStack e), s')
           | r => r
           end.

(** Run a computation on one component of a pair state. *)
Definition on_fst {S R A} (m : ST S A) : ST (S * R) A :=
  fun '(s, r) => let '(x, s') := m s in (x, (s', r)).
Definition on_snd {S R A} (m : ST R A) : ST (S * R) A :=
  fun '(s, r) => let '(x, r') := m r in (x, (s, r')).

(** [defer d] around the rest [m] of a function: [d] runs when the
    function returns, on every path; its own result is discarded, as in
    [defer resp.Body.Close()]. *)
Definition defer {S A} (d : ST S unit) (m : ST S A) : ST S A :=
  fun s => let '(x, s') := m s in (x, snd (d s')).

Notation "x <- m ;; k" := (bind m (fun x => k))
  (at level 100, m at next level, right associativity) : go_scope.
Notation "m ;;; k" := (bind m (fun _ => k))
  (at level 100, right associativity) : go_scope.

(** ** Generic lemmas *)

Lemma in_int64_spec z : in_int64 z = true <-> (int64_min <= z <= int64_max)%Z.
Proof.
  unfold in_int64. rewrite andb_true_iff, !Z.leb_le. reflexivity.
Qed.

Lemma wrap64_in_range z : in_int64 z = true -> wrap64 z = z.
Proof.
  rewrite in_int64_spec. unfold int64_min, int64_max, wrap64. intros H.
  rewrite Z.mod_small by lia. lia.
Qed.

Lemma in_int64_wrap64 z : in_int64 (wrap64 z) = true.
Proof.
  apply in_int64_spec. unfold int64_min, int64_max, wrap64.
  pose proof (Z.mod_pos_bound (z + 2 ^ 63) (2 ^ 64)). lia.
Qed.

Lemma string_length_app (s t : string) : String.length (s ++ t) = String.length s + String.length t.
Proof. induction s as [|c s IH]; simpl; [reflexivity | now rewrite IH]. Qed.

(** Split every [if] of the goal. *)
Ltac case_ifs :=
  repeat match goal with
         | |- context [if ?b then _ else _] => destruct b
         end.
