(* ===== verification/GoFmt.v ===== *)
(** * Go's decimal integers and the dispatcher's error message

    [strconv.ParseInt(s, 10, 64)] (what [encoding/json] uses to store a
    number into an [int64] field), [strconv.FormatInt(i, 10)] (what the
    [%d] verb of [fmt] prints) and the message
    [fmt.Sprintf("%d:%s", code, msg)] built by [PostJson] and [checkErr]
    (src/body/body.go lines 63 and 96).  Digits go through the Standard
    Library's [Decimal] numbers. *)

From Stdlib Require Import String Ascii List ZArith Lia Bool.
From Stdlib Require Import Decimal DecimalString DecimalN.
From S2P Require Import Spec2Rocq.
Open Scope string_scope.

Module GoFmt.

(** [strconv.ParseUint(s, 10, 64)] up to the range check: one or more
    ASCII digits, nothing else; the empty string is a syntax error. *)
Definition parse_uint (s : string) : option N :=
  match NilZero.uint_of_string s with
  | Some d => Some (N.of_uint d)
  | None => None
  end.

(** The sign that [strconv.ParseInt] picks off: a leading ['+'] or ['-']. *)
Definition split_sign (s : string) : bool * string :=
  match s with
  | String "+" r => (false, r)
  | String "-" r => (true, r)
  | _ => (false, s)
  end.

(** [strconv.ParseInt(s, 10, 64)]: [None] is its syntax or range error. *)
Definition ParseInt (s : string) : option Z :=
  let '(neg, digits) := split_sign s in
  match parse_uint digits with
  | Some n =>
      let z := if neg then (- Z.of_N n)%Z else Z.of_N n in
      if in_int64 z then Some z else None
  | None => None
  end.

(** [strconv.FormatUint(n, 10)]. *)
Definition format_uint (n : N) : string := NilZero.string_of_uint (N.to_uint n).

(** [strconv.FormatInt(i, 10)], the [%d] verb on an [int64]. *)
Definition FormatInt (z : Z) : string :=
  if (z <? 0)%Z then String "-" (format_uint (Z.to_N (- z)))
  else format_uint (Z.to_N z).

(** [fmt.Sprintf("%d:%s", code, msg)] *)
Definition api_error_msg (code : Z) (msg : string) : string :=
  FormatInt code ++ ":" ++ msg.

(** Reading such a message back: the code is the text before the first
    [':'], the message is the rest. *)
Fixpoint split_colon (s : string) : option (string * string) :=
  match s with
  | EmptyString => None
  | String c r =>
      if Ascii.eqb c ":" then Some (EmptyString, r)
      else match split_colon r with
           | Some (a, b) => Some (String c a, b)
           | None => None
           end
  end.

Definition parse_api_error (s : string) : option (Z * string) :=
  match split_colon s with
  | Some (a, b) => match ParseInt a with
                   | Some c => Some (c, b)
                   | None => None
                   end
  | None => None
  end.

(** ** Lemmas on the digit strings *)

Lemma to_uint_not_nil (n : N) : N.to_uint n <> Nil.
Proof.
  intros H. pose proof (DecimalN.Unsigned.of_to n) as E.
  rewrite H in E. simpl in E. subst n. discriminate H.
Qed.

Lemma parse_format_uint n : parse_uint (format_uint n) = Some n.
Proof.
  unfold parse_uint, format_uint.
  rewrite NilZero.usu by apply to_uint_not_nil.
  now rewrite DecimalN.Unsigned.of_to.
Qed.

(** Every character [NilEmpty.string_of_uint] prints is a digit. *)
Definition is_digit (c : ascii) : bool :=
  (Ascii.nat_of_ascii "0" <=? Ascii.nat_of_ascii c)%nat &&
  (Ascii.nat_of_ascii c <=? Ascii.nat_of_ascii "9")%nat.

Fixpoint all_digits (s : string) : bool :=
  match s with
  | EmptyString => true
  | String c r => is_digit c && all_digits r
  end.

Lemma all_digits_string_of_uint u : all_digits (NilEmpty.string_of_uint u) = true.
Proof. induction u; simpl; auto. Qed.

Lemma split_sign_digits u :
  u <> Nil -> split_sign (NilEmpty.string_of_uint u) = (false, NilEmpty.string_of_uint u).
Proof. destruct u; simpl; congruence. Qed.

Lemma format_uint_digits n :
  format_uint n = NilEmpty.string_of_uint (N.to_uint n).
Proof.
  unfold format_uint, NilZero.string_of_uint.
  destruct (N.to_uint n) eqn:E; try reflexivity.
  exfalso; exact (to_uint_not_nil n E).
Qed.

Fixpoint no_colon (s : string) : bool :=
  match s with
  | EmptyString => true
  | String c r => negb (Ascii.eqb c ":") && no_colon r
  end.

Lemma no_colon_digits s : all_digits s = true -> no_colon s = true.
Proof.
  induction s as [|c s IH]; simpl; [reflexivity|].
  intros [Hc Hs]%andb_true_iff. rewrite (IH Hs), andb_true_r.
  destruct (Ascii.eqb_spec c ":") as [->|]; [discriminate Hc | reflexivity].
Qed.

Lemma no_colon_FormatInt z : no_colon (FormatInt z) = true.
Proof.
  unfold FormatInt. destruct (z <? 0)%Z; rewrite format_uint_digits;
    [simpl|]; apply no_colon_digits, all_digits_string_of_uint.
Qed.

Lemma split_colon_app (a b : string) :
  no_colon a = true -> split_colon (a ++ ":" ++ b) = Some (a, b).
Proof.
  induction a as [|c a IH]; simpl in *; [reflexivity|].
  intros [Hc Ha]%andb_true_iff. rewrite (IH Ha).
  destruct (Ascii.eqb c ":"); [discriminate Hc | reflexivity].
Qed.

(** ** Round trips *)

(** Printing an [int64] with [%d] and parsing it back with
    [strconv.ParseInt] gives the same number. *)
Theorem ParseInt_FormatInt (z : Z) :
  in_int64 z = true -> ParseInt (FormatInt z) = Some z.
Proof.
  intros Hz. unfold FormatInt.
  destruct (Z.ltb_spec z 0) as [Hneg|Hpos].
  - unfold ParseInt. simpl. rewrite parse_format_uint.
    rewrite Z2N.id by lia. rewrite Z.opp_involutive, Hz. reflexivity.
  - unfold ParseInt. rewrite format_uint_digits, split_sign_digits by apply to_uint_not_nil.
    rewrite <- format_uint_digits, parse_format_uint, Z2N.id by lia.
    rewrite Hz. reflexivity.
Qed.

(** Whatever [strconv.ParseInt(s, 10, 64)] accepts is an [int64]. *)
Theorem ParseInt_bounds (s : string) (z : Z) :
  ParseInt s = Some z -> (int64_min <= z <= int64_max)%Z.
Proof.
  unfold ParseInt. destruct (split_sign s) as [neg digits].
  destruct (parse_uint digits) as [n|]; [|discriminate].
  destruct (in_int64 _) eqn:E; [|discriminate].
  intros [= <-]. now apply in_int64_spec.
Qed.

(** The message ["%d:%s"] of an API error determines its code and its
    message: the code is printed without a [':'], so the first [':']
    separates the two. *)
Theorem parse_api_error_msg (code : Z) (msg : string) :
  in_int64 code = true -> parse_api_error (api_error_msg code msg) = Some (code, msg).
Proof.
  intros Hc. unfold parse_api_error, api_error_msg.
  rewrite split_colon_app by apply no_colon_FormatInt.
  now rewrite ParseInt_FormatInt.
Qed.

End GoFmt.
