(* ===== verification/Json.v ===== *)
(** * JSON text as Go's [encoding/json] reads it

    The value tree, and the parser that stands for [json.Unmarshal]'s
    [checkValid] scan together with the literal decoding of its decoder:
    whitespace, the three keywords, numbers (kept as their literal text,
    as the decoder keeps the bytes of a number item), strings with their
    escapes (including [\uXXXX] with surrogate pairs, decoded as Go's
    [unquote] does), arrays and objects.  Strings are byte strings; Go's
    replacement of invalid UTF-8 bytes by U+FFFD inside a decoded string is
    not modelled. *)

From Stdlib Require Import String Ascii List ZArith Lia Bool.
From S2P Require Import Spec2Rocq.
Import ListNotations.
Open Scope string_scope.

Module Json.

Inductive json : Type :=
| JNull
| JBool (b : bool)
| JNum (lit : string)
| JStr (s : string)
| JArr (items : list json)
| JObj (members : list (string * json)).

(** ** Characters *)

Definition is_ws (c : ascii) : bool :=
  Ascii.eqb c " " || Ascii.eqb c "009" || Ascii.eqb c "010" || Ascii.eqb c "013".

Fixpoint skip_ws (s : string) : string :=
  match s with
  | String c r => if is_ws c then skip_ws r else s
  | EmptyString => EmptyString
  end.

Definition code (c : ascii) : nat := Ascii.nat_of_ascii c.

Definition is_digit (c : ascii) : bool := (48 <=? code c)%nat && (code c <=? 57)%nat.
Definition is_digit19 (c : ascii) : bool := (49 <=? code c)%nat && (code c <=? 57)%nat.

(** The longest prefix of digits, and the rest. *)
Fixpoint span_digits (s : string) : string * string :=
  match s with
  | String c r =>
      if is_digit c then let '(d, r') := span_digits r in (String c d, r') else (EmptyString, s)
  | EmptyString => (EmptyString, EmptyString)
  end.

(** ** Numbers: [-? (0 | [1-9][0-9]* ) (. [0-9]+)? ([eE] [+-]? [0-9]+)?] *)

Definition scan_int (s : string) : option (string * string) :=
  match s with
  | String "0" r => Some ("0", r)
  | String c r =>
      if is_digit19 c then let '(d, r') := span_digits r in Some (String c d, r') else None
  | EmptyString => None
  end.

Definition scan_frac (s : string) : option (string * string) :=
  match s with
  | String "." r =>
      match span_digits r with
      | (EmptyString, _) => None
      | (d, r') => Some (String "." d, r')
      end
  | _ => Some (EmptyString, s)
  end.

Definition scan_exp_digits (e : string) (s : string) : option (string * string) :=
  match span_digits s with
  | (EmptyString, _) => None
  | (d, r) => Some (e ++ d, r)
  end.

Definition scan_exp (s : string) : option (string * string) :=
  match s with
  | String c r =>
      if Ascii.eqb c "e" || Ascii.eqb c "E" then
        match r with
        | String "+" r' => scan_exp_digits (String c "+") r'
        | String "-" r' => scan_exp_digits (String c "-") r'
        | _ => scan_exp_digits (String c EmptyString) r
        end
      else Some (EmptyString, s)
  | EmptyString => Some (EmptyString, EmptyString)
  end.

Definition scan_number (s : string) : option (string * string) :=
  let '(sign, s1) := match s with
                     | String "-" r => ("-", r)
                     | _ => (EmptyString, s)
                     end in
  match scan_int s1 with
  | Some (i, s2) =>
      match scan_frac s2 with
      | Some (f, s3) =>
          match scan_exp s3 with
          | Some (e, s4) => Some (sign ++ i ++ f ++ e, s4)
          | None => None
          end
      | None => None
      end
  | None => None
  end.

(** ** Strings *)

Definition hex_val (c : ascii) : option Z :=
  let n := code c in
  if (48 <=? n)%nat && (n <=? 57)%nat then Some (Z.of_nat (n - 48))
  else if (97 <=? n)%nat && (n <=? 102)%nat then Some (Z.of_nat (n - 87))
  else if (65 <=? n)%nat && (n <=? 70)%nat then Some (Z.of_nat (n - 55))
  else None.

(** [getu4]: the code unit of four hex digits. *)
Definition hex4 (a b c d : ascii) : option Z :=
  match hex_val a, hex_val b, hex_val c, hex_val d with
  | Some x1, Some x2, Some x3, Some x4 => Some (((x1 * 16 + x2) * 16 + x3) * 16 + x4)%Z
  | _, _, _, _ => None
  end.

Definition byte_of (z : Z) : ascii := Ascii.ascii_of_N (Z.to_N z).

(** [utf8.EncodeRune] for a code point of at most U+10FFFF. *)
Definition utf8_encode (r : Z) : string :=
  if (r <? 128)%Z then String (byte_of r) EmptyString
  else if (r <? 2048)%Z then
    String (byte_of (192 + r / 64)) (String (byte_of (128 + r mod 64)) EmptyString)
  else if (r <? 65536)%Z then
    String (byte_of (224 + r / 4096))
      (String (byte_of (128 + (r / 64) mod 64)) (String (byte_of (128 + r mod 64)) EmptyString))
  else
    String (byte_of (240 + r / 262144))
      (String (byte_of (128 + (r / 4096) mod 64))
         (String (byte_of (128 + (r / 64) mod 64)) (String (byte_of (128 + r mod 64)) EmptyString))).

Definition replacement_char : Z := 65533.

Definition is_surrogate (r : Z) : bool := (55296 <=? r)%Z && (r <? 57344)%Z.

(** [utf16.DecodeRune]. *)
Definition decode_pair (r1 r2 : Z) : Z :=
  if (55296 <=? r1)%Z && (r1 <? 56320)%Z && (56320 <=? r2)%Z && (r2 <? 57344)%Z
  then ((r1 - 55296) * 1024 + (r2 - 56320) + 65536)%Z
  else replacement_char.

(** The one-character escapes of JSON strings. *)
Definition simple_escape (e : ascii) : option ascii :=
  if Ascii.eqb e "034" then Some "034"%char
  else if Ascii.eqb e "\" then Some "\"%char
  else if Ascii.eqb e "/" then Some "/"%char
  else if Ascii.eqb e "b" then Some "008"%char
  else if Ascii.eqb e "f" then Some "012"%char
  else if Ascii.eqb e "n" then Some "010"%char
  else if Ascii.eqb e "r" then Some "013"%char
  else if Ascii.eqb e "t" then Some "009"%char
  else None.

(** A [\uXXXX] escape at the head of [s]: the code unit and the rest. *)
Definition u_escape (s : string) : option (Z * string) :=
  match s with
  | String bs (String u (String a (String b (String c (String d r))))) =>
      if Ascii.eqb bs "\" && Ascii.eqb u "u" then
        match hex4 a b c d with
        | Some x => Some (x, r)
        | None => None
        end
      else None
  | _ => None
  end.

(** The rune a [\uXXXX] escape stands for and the input after it: a
    surrogate takes the next escape when the two form a valid pair, and
    stands for U+FFFD otherwise. *)
Definition u_rune (u : Z) (r : string) : Z * string :=
  if is_surrogate u then
    match u_escape r with
    | Some (u', r') =>
        let dec := decode_pair u u' in
        if (dec =? replacement_char)%Z then (replacement_char, r) else (dec, r')
    | None => (replacement_char, r)
    end
  else (u, r).

(** The body of a string after its opening quote, up to the closing
    quote: the decoded bytes and the rest of the input.  A control
    character, an unknown escape or a malformed [\u] is a syntax error.
    The recursion is on the length of the input left. *)
Fixpoint scan_string_fuel (n : nat) (s : string) (acc : string) : option (string * string) :=
  match n with
  | O => None
  | S n =>
      match s with
      | EmptyString => None
      | String c r =>
          if Ascii.eqb c "034" then Some (acc, r)
          else if Ascii.eqb c "\" then
            match r with
            | String e r1 =>
                if Ascii.eqb e "u" then
                  match u_escape s with
                  | Some (u, r2) =>
                      let '(rn, r3) := u_rune u r2 in
                      scan_string_fuel n r3 (acc ++ utf8_encode rn)
                  | None => None
                  end
                else match simple_escape e with
                     | Some ch => scan_string_fuel n r1 (acc ++ String ch EmptyString)
                     | None => None
                     end
            | EmptyString => None
            end
          else if (code c <? 32)%nat then None
          else scan_string_fuel n r (acc ++ String c EmptyString)
      end
  end.

Definition scan_string (s : string) (acc : string) : option (string * string) :=
  scan_string_fuel (S (String.length s)) s acc.

(** ** Values

    [strip_prefix p s] is [s] without its prefix [p], when it has it: the
    scanner's test of the next bytes against a punctuation mark or a
    keyword. *)
Fixpoint strip_prefix (p s : string) : option string :=
  match p, s with
  | EmptyString, _ => Some s
  | String c p', String d s' => if Ascii.eqb c d then strip_prefix p' s' else None
  | String _ _, EmptyString => None
  end.

Definition quote : string := String "034" EmptyString.

(** [parse_value] reads one value after optional whitespace;
    [parse_elems] reads the elements of an array after its ['['] (or
    after a [','])  and [parse_members] the members of an object.  The
    first byte of a value decides its kind, as in Go's scanner ([stateBeginValue]).
    The fuel bounds the nesting and the number of elements; [json_fuel]
    gives every call one unit per input character and two to spare
    (lemma [json_fuel_enough] below: it never runs out first). *)
Fixpoint parse_value (n : nat) (s : string) : option (json * string) :=
  match n with
  | O => None
  | S n =>
      let s' := skip_ws s in
      match strip_prefix "{" s' with
      | Some r =>
          match strip_prefix "}" (skip_ws r) with
          | Some r' => Some (JObj [], r')
          | None => parse_members n (skip_ws r) []
          end
      | None =>
      match strip_prefix "[" s' with
      | Some r =>
          match strip_prefix "]" (skip_ws r) with
          | Some r' => Some (JArr [], r')
          | None => parse_elems n (skip_ws r) []
          end
      | None =>
      match strip_prefix quote s' with
      | Some r =>
          match scan_string r EmptyString with
          | Some (str, r') => Some (JStr str, r')
          | None => None
          end
      | None =>
      match strip_prefix "true" s' with
      | Some r => Some (JBool true, r)
      | None =>
      match strip_prefix "false" s' with
      | Some r => Some (JBool false, r)
      | None =>
      match strip_prefix "null" s' with
      | Some r => Some (JNull, r)
      | None =>
          match scan_number s' with
          | Some (lit, r) => Some (JNum lit, r)
          | None => None
          end
      end end end end end
      end
  end
with parse_elems (n : nat) (s : string) (acc : list json) : option (json * string) :=
  match n with
  | O => None
  | S n =>
      match parse_value n s with
      | Some (v, r) =>
          match strip_prefix "," (skip_ws r) with
          | Some r' => parse_elems n r' (v :: acc)
          | None =>
              match strip_prefix "]" (skip_ws r) with
              | Some r' => Some (JArr (rev (v :: acc)), r')
              | None => None
              end
          end
      | None => None
      end
  end
with parse_members (n : nat) (s : string) (acc : list (string * json))
  : option (json * string) :=
  match n with
  | O => None
  | S n =>
      match strip_prefix quote (skip_ws s) with
      | Some r =>
          match scan_string r EmptyString with
          | Some (k, r1) =>
              match strip_prefix ":" (skip_ws r1) with
              | Some r2 =>
                  match parse_value n r2 with
                  | Some (v, r3) =>
                      match strip_prefix "," (skip_ws r3) with
                      | Some r4 => parse_members n r4 ((k, v) :: acc)
                      | None =>
                          match strip_prefix "}" (skip_ws r3) with
                          | Some r4 => Some (JObj (rev ((k, v) :: acc)), r4)
                          | None => None
                          end
                      end
                  | None => None
                  end
              | None => None
              end
          | None => None
          end
      | None => None
      end
  end.

Definition json_fuel (s : string) : nat := 2 * String.length s + 2.

(** The whole input must be one value and whitespace. *)
Definition json_parse (s : string) : option json :=
  match parse_value (json_fuel s) s with
  | Some (j, r) => match skip_ws r with
                   | EmptyString => Some j
                   | _ => None
                   end
  | None => None
  end.

(** ** Lemmas: every scanner consumes input, so the fuel suffices *)

Lemma skip_ws_length s : String.length (skip_ws s) <= String.length s.
Proof. induction s as [|c s IH]; simpl; [lia|]. destruct (is_ws c); simpl; lia. Qed.

Lemma strip_prefix_length p s r :
  strip_prefix p s = Some r -> String.length s = String.length p + String.length r.
Proof.
  revert s. induction p as [|c p IH]; intros [|d s]; simpl; try discriminate.
  - now intros [= <-].
  - now intros [= <-].
  - destruct (Ascii.eqb c d); [|discriminate]. intros H. rewrite (IH _ H). lia.
Qed.

Lemma span_digits_length s d r : span_digits s = (d, r) -> String.length r <= String.length s.
Proof.
  revert d. induction s as [|c s IH]; simpl; intros d.
  - intros [= _ <-]. simpl. lia.
  - destruct (is_digit c); [|intros [= _ <-]; simpl; lia].
    destruct (span_digits s) as [d' r'] eqn:E. intros [= _ <-].
    specialize (IH _ eq_refl). lia.
Qed.

Ltac span_len :=
  match goal with
  | |- context [span_digits ?x] =>
      let d := fresh "d" in let r := fresh "r" in let E := fresh "E" in
      destruct (span_digits x) as [d r] eqn:E; apply span_digits_length in E
  end.

Lemma scan_number_length s lit r :
  scan_number s = Some (lit, r) -> String.length r < String.length s.
Proof.
  unfold scan_number.
  assert (Hs : exists sg s1, (match s with String "-" r => ("-", r) | _ => (EmptyString, s) end)
                              = (sg, s1) /\ String.length s1 <= String.length s).
  { destruct s as [|c r0]; [now eexists _, _|].
    destruct c as [[] [] [] [] [] [] [] []]; eexists _, _; split; try reflexivity; simpl; lia. }
  destruct Hs as (sg & s1 & -> & Hl).
  destruct (scan_int s1) as [[i s2]|] eqn:Ei; [|discriminate].
  assert (H2 : String.length s2 < String.length s1).
  { revert Ei. unfold scan_int. destruct s1 as [|c r1]; [discriminate|].
    destruct c as [[] [] [] [] [] [] [] []]; try (intros [= _ <-]; simpl; lia);
      destruct (is_digit19 _); try discriminate; span_len; intros [= _ <-]; simpl; lia. }
  destruct (scan_frac s2) as [[f s3]|] eqn:Ef; [|discriminate].
  assert (H3 : String.length s3 <= String.length s2).
  { revert Ef. unfold scan_frac. destruct s2 as [|c r2]; [intros [= _ <-]; lia|].
    destruct c as [[] [] [] [] [] [] [] []]; try (intros [= _ <-]; lia);
      span_len; destruct d; try discriminate; intros [= _ <-]; simpl; lia. }
  destruct (scan_exp s3) as [[e s4]|] eqn:Ee; [|discriminate].
  assert (H4 : String.length s4 <= String.length s3).
  { revert Ee. unfold scan_exp, scan_exp_digits. destruct s3 as [|c r3]; [intros [= _ <-]; lia|].
    destruct (Ascii.eqb c "e" || Ascii.eqb c "E"); [|intros [= _ <-]; lia].
    destruct r3 as [|c' r4]; [simpl; intros [=]|].
    destruct c' as [[] [] [] [] [] [] [] []];
      span_len; destruct d; try discriminate; intros [= _ <-]; simpl in *; lia. }
  intros [= _ <-]. lia.
Qed.

Lemma u_escape_length s u r : u_escape s = Some (u, r) -> String.length r < String.length s.
Proof.
  unfold u_escape.
  destruct s as [|b [|u0 [|a [|b' [|c [|d r0]]]]]]; try discriminate.
  destruct (Ascii.eqb b "\" && Ascii.eqb u0 "u"); [|discriminate].
  destruct (hex4 a b' c d); [|discriminate]. intros [= _ <-]. simpl. lia.
Qed.

Lemma u_rune_length u r rn r' : u_rune u r = (rn, r') -> String.length r' <= String.length r.
Proof.
  unfold u_rune. destruct (is_surrogate u); [|intros [= _ <-]; lia].
  destruct (u_escape r) as [[u2 r2]|] eqn:E; [|intros [= _ <-]; lia].
  apply u_escape_length in E.
  destruct (decode_pair u u2 =? replacement_char)%Z; intros [= _ <-]; lia.
Qed.

Lemma scan_string_fuel_length n s acc str r :
  scan_string_fuel n s acc = Some (str, r) -> String.length r < String.length s.
Proof.
  revert s acc. induction n as [|n IH]; intros s acc; simpl; [discriminate|].
  destruct s as [|c r0]; [discriminate|].
  destruct (Ascii.eqb c "034"); [intros [= _ <-]; simpl; lia|].
  destruct (Ascii.eqb c "\").
  - destruct r0 as [|e r1]; [discriminate|].
    destruct (Ascii.eqb e "u").
    + destruct (u_escape _) as [[u r2]|] eqn:Eu; [|discriminate].
      apply u_escape_length in Eu.
      destruct (u_rune u r2) as [rn r3] eqn:Er. apply u_rune_length in Er.
      intros H. specialize (IH _ _ H). lia.
    + destruct (simple_escape e); [|discriminate].
      intros H. specialize (IH _ _ H). simpl. lia.
  - destruct (code c <? 32)%nat; [discriminate|].
    intros H. specialize (IH _ _ H). simpl. lia.
Qed.

Lemma scan_string_length s acc str r :
  scan_string s acc = Some (str, r) -> String.length r < String.length s.
Proof. apply scan_string_fuel_length. Qed.

(** What a parser run with fuel [n] on [s] promises when it succeeds: it
    consumes at least one character, and any fuel at least the number of
    characters consumed gives the same result. *)
Definition consumes {A} (run : nat -> option (A * string)) (n : nat) (s : string) : Prop :=
  forall v r, run n = Some (v, r) ->
    String.length r < String.length s /\
    forall m, String.length s - String.length r <= m -> run m = Some (v, r).

(** Record the lengths the scanners' results have. *)
Ltac lens :=
  repeat match goal with
  | E : strip_prefix ?p ?x = Some ?r |- _ =>
      lazymatch goal with
      | _ : String.length x = String.length p + String.length r |- _ => fail
      | _ => pose proof (strip_prefix_length _ _ _ E)
      end
  | E : scan_string ?x _ = Some (_, ?r) |- _ =>
      lazymatch goal with
      | _ : String.length r < String.length x |- _ => fail
      | _ => pose proof (scan_string_length _ _ _ _ E)
      end
  | E : scan_number ?x = Some (_, ?r) |- _ =>
      lazymatch goal with
      | _ : String.length r < String.length x |- _ => fail
      | _ => pose proof (scan_number_length _ _ _ E)
      end
  | H : context [skip_ws ?x] |- _ =>
      lazymatch goal with
      | _ : String.length (skip_ws x) <= String.length x |- _ => fail
      | _ => pose proof (skip_ws_length x)
      end
  end; simpl String.length in *.

(** Replay the scanners' results in a run with other fuel. *)
Ltac replay :=
  cbn [parse_value parse_elems parse_members];
  repeat match goal with
  | E : strip_prefix _ _ = _ |- _ => rewrite E; clear E
  | E : scan_string _ _ = _ |- _ => rewrite E; clear E
  | E : scan_number _ = _ |- _ => rewrite E; clear E
  end.

(** A branch that returns without a recursive call. *)
Ltac leaf H :=
  injection H as <- <-; lens; split; [lia|];
  let m := fresh "m" in let Hm := fresh "Hm" in
  intros [|m] Hm; [lia|]; replay; reflexivity.

(** A branch that returns what a recursive call returns. *)
Ltac call IH H :=
  let Lr := fresh "Lr" in let Hmono := fresh "Hmono" in
  edestruct IH as [Lr Hmono]; [exact H|]; lens; split; [lia|];
  let m := fresh "m" in let Hm := fresh "Hm" in
  intros [|m] Hm; [lia|]; replay; apply Hmono; lia.

Lemma parse_fuel n :
  (forall s, consumes (fun k => parse_value k s) n s) /\
  (forall s acc, consumes (fun k => parse_elems k s acc) n s) /\
  (forall s acc, consumes (fun k => parse_members k s acc) n s).
Proof.
  unfold consumes. induction n as [|n (IHv & IHe & IHm)];
    [repeat split; intros; discriminate|].
  split; [|split].
  - intros s v r H. cbn [parse_value] in H.
    destruct (strip_prefix "{" (skip_ws s)) as [r1|] eqn:E1.
    { destruct (strip_prefix "}" (skip_ws r1)) as [r2|] eqn:E2; [leaf H | call IHm H]. }
    destruct (strip_prefix "[" (skip_ws s)) as [r1|] eqn:E3.
    { destruct (strip_prefix "]" (skip_ws r1)) as [r2|] eqn:E4; [leaf H | call IHe H]. }
    destruct (strip_prefix quote (skip_ws s)) as [r1|] eqn:E5.
    { destruct (scan_string r1 EmptyString) as [[str r2]|] eqn:E6; [leaf H | discriminate]. }
    destruct (strip_prefix "true" (skip_ws s)) as [r1|] eqn:E7; [leaf H|].
    destruct (strip_prefix "false" (skip_ws s)) as [r1|] eqn:E8; [leaf H|].
    destruct (strip_prefix "null" (skip_ws s)) as [r1|] eqn:E9; [leaf H|].
    destruct (scan_number (skip_ws s)) as [[lit r1]|] eqn:E10; [leaf H | discriminate].
  - intros s acc v r H. cbn [parse_elems] in H.
    destruct (parse_value n s) as [[x r1]|] eqn:E1; [|discriminate].
    destruct (IHv _ _ _ E1) as [L1 Hv].
    destruct (strip_prefix "," (skip_ws r1)) as [r2|] eqn:E2.
    + destruct (IHe _ _ _ _ H) as [Lr He]; lens. split; [lia|].
      intros [|m] Hm; [lia|]. cbn [parse_elems]. rewrite (Hv m) by lia. rewrite E2.
      apply He. lia.
    + destruct (strip_prefix "]" (skip_ws r1)) as [r2|] eqn:E3; [|discriminate].
      injection H as <- <-. lens. split; [lia|].
      intros [|m] Hm; [lia|]. cbn [parse_elems]. rewrite (Hv m) by lia. now rewrite E2, E3.
  - intros s acc v r H. cbn [parse_members] in H.
    destruct (strip_prefix quote (skip_ws s)) as [r1|] eqn:E1; [|discriminate].
    destruct (scan_string r1 EmptyString) as [[k r2]|] eqn:E2; [|discriminate].
    destruct (strip_prefix ":" (skip_ws r2)) as [r3|] eqn:E3; [|discriminate].
    destruct (parse_value n r3) as [[x r4]|] eqn:E4; [|discriminate].
    destruct (IHv _ _ _ E4) as [L4 Hv].
    destruct (strip_prefix "," (skip_ws r4)) as [r5|] eqn:E5.
    + destruct (IHm _ _ _ _ H) as [Lr Hm']; lens. split; [lia|].
      intros [|m] Hm; [lia|]. cbn [parse_members]. rewrite E1, E2, E3.
      rewrite (Hv m) by lia. rewrite E5. apply Hm'. lia.
    + destruct (strip_prefix "}" (skip_ws r4)) as [r5|] eqn:E6; [|discriminate].
      injection H as <- <-. lens. split; [lia|].
      intros [|m] Hm; [lia|]. cbn [parse_members]. rewrite E1, E2, E3.
      rewrite (Hv m) by lia. now rewrite E5, E6.
Qed.

Lemma parse_value_fuel n s j r :
  parse_value n s = Some (j, r) -> parse_value (json_fuel s) s = Some (j, r).
Proof.
  intros H. destruct (proj1 (parse_fuel n) s j r H) as [_ Hm].
  apply Hm. unfold json_fuel. lia.
Qed.

(** The fuel [json_fuel] is enough: [json_parse] accepts exactly the
    inputs that some run of the parser, with any fuel, reads as one value
    followed by whitespace.  So [json_parse] fails only on ill-formed
    text, never for want of fuel. *)
Lemma json_fuel_enough s j :
  json_parse s = Some j <->
  exists n r, parse_value n s = Some (j, r) /\ skip_ws r = EmptyString.
Proof.
  unfold json_parse. split.
  - destruct (parse_value (json_fuel s) s) as [[j' r]|] eqn:E; [|discriminate].
    destruct (skip_ws r) eqn:Ew; [|discriminate]. intros [= <-]. eauto.
  - intros (n & r & H & Hw). now rewrite (parse_value_fuel n s j r H), Hw.
Qed.

End Json.
