(* ===== verification/JsonDecode.v ===== *)
(** * [json.Unmarshal] into a Go struct

    A struct is the list of its fields, each with the JSON name it is
    matched by (its tag, or its Go name when it has none) and its value.
    The field kinds are the ones the dispatcher's structs use: [int64],
    [string] and the empty interface [interface{}].  The decoder follows
    [encoding/json]'s [decodeState]: the input is first checked as a whole
    ([checkValid]: a syntax error changes nothing); an object's members are
    stored in order into the field matched by exact name, else by
    case-folded name, unknown members are skipped; a literal of the wrong
    type records an [*UnmarshalTypeError] (the first one is returned at the
    end) and leaves the field as it was; [null] leaves an [int64] or
    [string] field as it was and sets an interface to [nil]. *)

From Stdlib Require Import String Ascii List ZArith Lia Bool.
From S2P Require Import Spec2Rocq GoFmt Json.
Import ListNotations.
Open Scope string_scope.

Module Decode.
Import Json.

Inductive gval : Type :=
| GInt64 (z : Z)
| GString (s : string)
| GIface (v : option json).

(** A struct value: its fields in declaration order, by JSON name. *)
Definition gstruct : Type := list (string * gval).

(** The Go type of a field, as [UnmarshalTypeError] prints it. *)
Definition gtype (v : gval) : string :=
  match v with
  | GInt64 _ => "int64"
  | GString _ => "string"
  | GIface _ => "interface {}"
  end.

(** [foldName]: ASCII letters upper-cased. *)
Definition fold_char (c : ascii) : ascii :=
  if (97 <=? code c)%nat && (code c <=? 122)%nat then Ascii.ascii_of_nat (code c - 32) else c.

Fixpoint fold_name (s : string) : string :=
  match s with
  | EmptyString => EmptyString
  | String c r => String (fold_char c) (fold_name r)
  end.

(** The field a member key selects: exact name first, then folded name. *)
Definition find_field (key : string) (st : gstruct) : option string :=
  match find (fun f => String.eqb (fst f) key) st with
  | Some (n, _) => Some n
  | None =>
      match find (fun f => String.eqb (fold_name (fst f)) (fold_name key)) st with
      | Some (n, _) => Some n
      | None => None
      end
  end.

Fixpoint get_field (name : string) (st : gstruct) : option gval :=
  match st with
  | [] => None
  | (n, v) :: rest => if String.eqb n name then Some v else get_field name rest
  end.

(** [literalStore], [array] and [object] of the decoder, for one value
    stored into one field. *)
Definition store_value (field : string) (j : json) (v : gval) : gval * option go_error :=
  let mismatch what := (v, Some (EUnmarshalType what (gtype v) field)) in
  match v, j with
  | GIface _, JNull => (GIface None, None)
  | GIface _, _ => (GIface (Some j), None)
  | _, JNull => (v, None)
  | GInt64 _, JNum lit =>
      match GoFmt.ParseInt lit with
      | Some z => (GInt64 z, None)
      | None => mismatch ("number " ++ lit)
      end
  | GString _, JStr s => (GString s, None)
  | GString _, JNum _ => mismatch "number"
  | _, JStr _ => mismatch "string"
  | _, JBool _ => mismatch "bool"
  | _, JArr _ => mismatch "array"
  | _, JObj _ => mismatch "object"
  end.

(** Store into the field named [name]. *)
Fixpoint store_field (name : string) (j : json) (st : gstruct) : gstruct * option go_error :=
  match st with
  | [] => ([], None)
  | (n, v) :: rest =>
      if String.eqb n name then let '(v', e) := store_value n j v in ((n, v') :: rest, e)
      else let '(rest', e) := store_field name j rest in ((n, v) :: rest', e)
  end.

(** [d.saveError]: keep the first error. *)
Definition save_error (saved e : option go_error) : option go_error :=
  match saved with
  | Some _ => saved
  | None => e
  end.

(** The members of an object, in order. *)
Fixpoint decode_members (kvs : list (string * json)) (st : gstruct) (saved : option go_error)
  : gstruct * option go_error :=
  match kvs with
  | [] => (st, saved)
  | (k, j) :: rest =>
      match find_field k st with
      | Some name =>
          let '(st', e) := store_field name j st in
          decode_members rest st' (save_error saved e)
      | None => decode_members rest st saved
      end
  end.

(** A whole value into a struct of Go type [tyname]. *)
Definition decode_struct (tyname : string) (j : json) (st : gstruct) : gstruct * option go_error :=
  match j with
  | JObj kvs => decode_members kvs st None
  | JNull => (st, None)
  | JBool _ => (st, Some (EUnmarshalType "bool" tyname ""))
  | JNum _ => (st, Some (EUnmarshalType "number" tyname ""))
  | JStr _ => (st, Some (EUnmarshalType "string" tyname ""))
  | JArr _ => (st, Some (EUnmarshalType "array" tyname ""))
  end.

(** [json.Unmarshal(data, v)] with [v] a pointer to a struct of type
    [tyname]: the struct is the state the call writes. *)
Definition Unmarshal (tyname : string) (data : string) : ST gstruct unit :=
  fun st =>
    match json_parse data with
    | None => (Err ESyntax, st)
    | Some j =>
        let '(st', e) := decode_struct tyname j st in
        (match e with None => Ok tt | Some e => Err e end, st')
    end.

(** ** The shape of a struct: field names and Go types *)

Definition shape (st : gstruct) : list (string * string) :=
  map (fun f => (fst f, gtype (snd f))) st.

Lemma store_value_type field j v : gtype (fst (store_value field j v)) = gtype v.
Proof.
  destruct v, j; simpl; try reflexivity.
  destruct (GoFmt.ParseInt lit); reflexivity.
Qed.

Lemma store_field_shape name j st : shape (fst (store_field name j st)) = shape st.
Proof.
  induction st as [|[n v] rest IH]; simpl; [reflexivity|].
  destruct (String.eqb n name).
  - destruct (store_value n j v) as [v' e] eqn:E. simpl. f_equal. f_equal.
    now rewrite <- (store_value_type n j v), E.
  - destruct (store_field name j rest) as [rest' e]. simpl in *. now rewrite IH.
Qed.

Lemma decode_members_shape kvs st saved :
  shape (fst (decode_members kvs st saved)) = shape st.
Proof.
  revert st saved. induction kvs as [|[k j] rest IH]; intros st saved; simpl; [reflexivity|].
  destruct (find_field k st) as [name|]; [|apply IH].
  destruct (store_field name j st) as [st' e] eqn:E.
  rewrite IH. now rewrite <- (store_field_shape name j st), E.
Qed.

Lemma get_store_field_other name name' j st :
  name <> name' -> get_field name' (fst (store_field name j st)) = get_field name' st.
Proof.
  intros Hne. induction st as [|[n v] rest IH]; simpl; [reflexivity|].
  destruct (String.eqb_spec n name) as [->|Hn].
  - destruct (store_value name j v) as [v' e]. simpl.
    destruct (String.eqb_spec name name'); [contradiction|reflexivity].
  - destruct (store_field name j rest) as [rest' e]. simpl in *.
    now rewrite IH.
Qed.

(** ** Well-formed structs: every [int64] field holds an [int64] *)

Definition gval_wf (v : gval) : bool :=
  match v with
  | GInt64 z => in_int64 z
  | _ => true
  end.

Definition gstruct_wf (st : gstruct) : bool := forallb (fun f => gval_wf (snd f)) st.

Lemma store_value_wf field j v : gval_wf v = true -> gval_wf (fst (store_value field j v)) = true.
Proof.
  intros Hv. destruct v, j; simpl; auto.
  destruct (GoFmt.ParseInt lit) as [z'|] eqn:E; simpl; [|exact Hv].
  apply in_int64_spec. exact (GoFmt.ParseInt_bounds _ _ E).
Qed.

Lemma store_field_wf name j st :
  gstruct_wf st = true -> gstruct_wf (fst (store_field name j st)) = true.
Proof.
  induction st as [|[n v] rest IH]; simpl; [reflexivity|].
  intros [Hv Hr]%andb_true_iff.
  destruct (String.eqb n name).
  - destruct (store_value n j v) as [v' e] eqn:E. simpl.
    rewrite Hr, andb_true_r. rewrite <- (store_value_wf n j v Hv), E. reflexivity.
  - destruct (store_field name j rest) as [rest' e]. simpl in *.
    rewrite Hv. exact (IH Hr).
Qed.

Lemma decode_members_wf kvs st saved :
  gstruct_wf st = true -> gstruct_wf (fst (decode_members kvs st saved)) = true.
Proof.
  revert st saved. induction kvs as [|[k j] rest IH]; intros st saved Hst; simpl; [exact Hst|].
  destruct (find_field k st) as [name|]; [|apply IH, Hst].
  destruct (store_field name j st) as [st' e] eqn:E. apply IH.
  rewrite <- (store_field_wf name j st Hst), E. reflexivity.
Qed.

(** [Unmarshal] keeps the shape and the well-formedness of the struct it
    writes, on every path. *)
Lemma Unmarshal_shape_wf tyname data st :
  shape (snd (Unmarshal tyname data st)) = shape st /\
  (gstruct_wf st = true -> gstruct_wf (snd (Unmarshal tyname data st)) = true).
Proof.
  unfold Unmarshal. destruct (json_parse data) as [j|]; [|auto].
  destruct (decode_struct tyname j st) as [st' e] eqn:E.
  replace st' with (fst (decode_struct tyname j st)) by now rewrite E.
  destruct j; simpl; auto using decode_members_shape, decode_members_wf.
Qed.

(** ** Which field a member selects *)

Lemma find_field_names key st st' :
  map fst st = map fst st' -> find_field key st = find_field key st'.
Proof.
  intros Hn. unfold find_field.
  assert (Hfind : forall f : string -> bool,
             option_map fst (find (fun x => f (fst x)) st) =
             option_map fst (find (fun x => f (fst x)) st')).
  { intros f. revert st' Hn. induction st as [|[n v] rest IH]; intros [|[n' v'] rest'] Hn;
      simpl in *; try discriminate; [reflexivity|].
    injection Hn as -> Hr. destruct (f n'); [reflexivity|]. now apply IH. }
  pose proof (Hfind (fun n => String.eqb n key)) as H1.
  pose proof (Hfind (fun n => String.eqb (fold_name n) (fold_name key))) as H2.
  simpl in *.
  destruct (find _ st) as [[a b]|], (find _ st') as [[a' b']|]; simpl in H1; try discriminate.
  - congruence.
  - destruct (find _ st) as [[c d]|], (find _ st') as [[c' d']|]; simpl in H2;
      congruence.
Qed.

Lemma shape_names st st' : shape st = shape st' -> map fst st = map fst st'.
Proof.
  unfold shape. intros H. apply (f_equal (map fst)) in H.
  rewrite !map_map in H. exact H.
Qed.

(** A field no member selects keeps its value. *)
Lemma decode_members_untouched name kvs st saved :
  (forall k j, In (k, j) kvs -> find_field k st <> Some name) ->
  get_field name (fst (decode_members kvs st saved)) = get_field name st.
Proof.
  revert st saved. induction kvs as [|[k j] rest IH]; intros st saved Hsel; simpl; [reflexivity|].
  destruct (find_field k st) as [n|] eqn:Ek.
  - destruct (store_field n j st) as [st' e] eqn:E.
    assert (Hn : n <> name) by (intros ->; exact (Hsel k j (or_introl eq_refl) Ek)).
    assert (Hst' : map fst st' = map fst st).
    { apply shape_names. now rewrite <- (store_field_shape n j st), E. }
    rewrite IH.
    + now rewrite <- (get_store_field_other n name j st Hn), E.
    + intros k' j' Hin. rewrite (find_field_names k' st' st Hst').
      exact (Hsel k' j' (or_intror Hin)).
  - apply IH. intros k' j' Hin. exact (Hsel k' j' (or_intror Hin)).
Qed.

(** The first error the decoder saved is the one it returns, whatever the
    later members hold. *)
Lemma decode_members_saved kvs st e :
  snd (decode_members kvs st (Some e)) = Some e.
Proof.
  revert st. induction kvs as [|[k j] rest IH]; intros st; simpl; [reflexivity|].
  destruct (find_field k st) as [name|]; [|apply IH].
  destruct (store_field name j st) as [st' e']. apply IH.
Qed.

(** The field a key selects has the key's name up to ASCII case. *)
Lemma find_field_fold key st name :
  find_field key st = Some name -> fold_name key = fold_name name.
Proof.
  unfold find_field.
  destruct (find (fun f => String.eqb (fst f) key) st) as [[n v]|] eqn:E1.
  - cbn. intros [= <-]. apply find_some in E1 as [_ E1]. simpl in E1.
    apply String.eqb_eq in E1. now subst.
  - destruct (find (fun f => String.eqb (fold_name (fst f)) (fold_name key)) st)
      as [[n v]|] eqn:E2; cbn; [|intros [=]].
    intros [= <-]. apply find_some in E2 as [_ E2]. simpl in E2.
    apply String.eqb_eq in E2. now rewrite E2.
Qed.

End Decode.
