(* ===== verification/UrlValues.v ===== *)
(** * [net/url.Values]

    [url.Values] is [map[string][]string]: a Go map, so a reference that
    [PostForm] mutates in the caller's hands.  It is modelled as a stdpp
    [gmap] from keys to the list of values.  [Add] appends; [Encode]
    prints the form body [http.PostForm] sends: keys sorted bytewise
    ([sort.Strings], here an insertion sort), each value as [key=value]
    with both sides [QueryEscape]d, joined by ['&'].  The receiving side,
    [url.ParseQuery] with [QueryUnescape], reads such a body back; the
    lemmas show it reads back what [Encode] printed. *)

From stdpp Require Import base gmap strings list.
From Stdlib Require Import String Ascii Bool.
From S2P Require Import Spec2Rocq.
Open Scope string_scope.

Module Values.

Abbreviation values := (gmap string (list string)).

(** [v.Add(key, value)] *)
Definition Add (key value : string) (v : values) : values :=
  <[key := (default [] (v !! key) ++ [value])%list]> v.

(** ** [QueryEscape] *)

Definition code (c : ascii) : nat := Ascii.nat_of_ascii c.

(** Unreserved characters stay as they are: letters, digits, [-_.~]. *)
Definition unreserved (c : ascii) : bool :=
  let n := code c in
  ((97 <=? n) && (n <=? 122))%nat || ((65 <=? n) && (n <=? 90))%nat
  || ((48 <=? n) && (n <=? 57))%nat
  || Ascii.eqb c "-" || Ascii.eqb c "_" || Ascii.eqb c "." || Ascii.eqb c "~".

Definition hex_digit (n : nat) : ascii :=
  Ascii.ascii_of_nat (if (n <? 10)%nat then 48 + n else 55 + n)%nat.

Fixpoint QueryEscape (s : string) : string :=
  match s with
  | EmptyString => EmptyString
  | String c r =>
      if unreserved c then String c (QueryEscape r)
      else if Ascii.eqb c " " then String "+" (QueryEscape r)
      else String "%" (String (hex_digit (code c / 16)%nat) (String (hex_digit (code c mod 16)%nat)
                                                            (QueryEscape r)))
  end.

(** ** [Encode] *)

(** [sort.Strings] on the keys: insertion into a list sorted by the
    bytewise order. *)
Fixpoint insert_key (k : string) (ks : list string) : list string :=
  match ks with
  | [] => [k]
  | k' :: rest =>
      match String.compare k k' with
      | Gt => k' :: insert_key k rest
      | _ => k :: ks
      end
  end.

Definition sort_keys (ks : list string) : list string := foldr insert_key [] ks.

(** The [key=value] pairs of one key. *)
Definition encode_key (v : values) (k : string) : list string :=
  map (fun x => QueryEscape k ++ "=" ++ QueryEscape x) (default [] (v !! k)).

Fixpoint join_amp (ps : list string) : string :=
  match ps with
  | [] => ""
  | [p] => p
  | p :: rest => p ++ "&" ++ join_amp rest
  end.

(** [v.Encode()] *)
Definition Encode (v : values) : string :=
  join_amp (List.concat (map (encode_key v) (sort_keys (map fst (map_to_list v))))).

(** ** [url.ParseQuery]: how the receiving side reads the form *)

Definition unhex (c : ascii) : option nat :=
  let n := code c in
  if ((48 <=? n) && (n <=? 57))%nat then Some (n - 48)%nat
  else if ((97 <=? n) && (n <=? 102))%nat then Some (n - 87)%nat
  else if ((65 <=? n) && (n <=? 70))%nat then Some (n - 55)%nat
  else None.

(** [url.QueryUnescape]: [%XX] is the byte [XX], [+] is a space; a
    malformed escape is an error. *)
Fixpoint QueryUnescape (s : string) : option string :=
  match s with
  | EmptyString => Some EmptyString
  | String c r =>
      if Ascii.eqb c "%" then
        match r with
        | String a (String b r') =>
            match unhex a, unhex b with
            | Some x, Some y =>
                option_map (String (Ascii.ascii_of_nat (x * 16 + y)%nat)) (QueryUnescape r')
            | _, _ => None
            end
        | _ => None
        end
      else if Ascii.eqb c "+" then option_map (String " ") (QueryUnescape r)
      else option_map (String c) (QueryUnescape r)
  end.

(** [strings.Cut(s, sep)] for a one-byte separator. *)
Fixpoint Cut (sep : ascii) (s : string) : string * string * bool :=
  match s with
  | EmptyString => (EmptyString, EmptyString, false)
  | String c r =>
      if Ascii.eqb c sep then (EmptyString, r, true)
      else let '(b, a, f) := Cut sep r in (String c b, a, f)
  end.

Fixpoint contains (c : ascii) (s : string) : bool :=
  match s with
  | EmptyString => false
  | String d r => Ascii.eqb c d || contains c r
  end.

Definition semicolon_error : go_error := ENew "invalid semicolon separator in query".
Definition escape_error : go_error := ENew "invalid URL escape".

(** The loop of [parseQuery(m, query)]: one [&]-separated segment per
    turn; the fuel is one turn per byte of the query. *)
Fixpoint parse_query_fuel (fuel : nat) (query : string) (m : values) (err : option go_error)
  : values * option go_error :=
  match fuel with
  | O => (m, err)
  | S fuel =>
      match query with
      | EmptyString => (m, err)
      | _ =>
          let '(key, rest, _) := Cut "&" query in
          if contains ";" key then parse_query_fuel fuel rest m (Some semicolon_error)
          else if String.eqb key "" then parse_query_fuel fuel rest m err
          else
            let '(k, value, _) := Cut "=" key in
            match QueryUnescape k, QueryUnescape value with
            | Some k', Some v' => parse_query_fuel fuel rest (Add k' v' m) err
            | _, _ => parse_query_fuel fuel rest m (match err with None => Some escape_error | _ => err end)
            end
      end
  end.

(** [url.ParseQuery(query)]: the map and the error reported. *)
Definition ParseQuery (query : string) : values * option go_error :=
  parse_query_fuel (S (String.length query)) query ∅ None.

(** ** Lemmas *)

Lemma lookup_Add_eq key value (v : values) :
  Add key value v !! key = Some (default [] (v !! key) ++ [value])%list.
Proof. unfold Add. apply lookup_insert_eq. Qed.

Lemma lookup_Add_ne key key' value (v : values) :
  key ≠ key' -> Add key value v !! key' = v !! key'.
Proof. intros Hne. unfold Add. by apply lookup_insert_ne. Qed.

(** ** [sort.Strings] is a sort *)

Lemma insert_key_Permutation k ks : insert_key k ks ≡ₚ k :: ks.
Proof.
  induction ks as [|k' rest IH]; simpl; [reflexivity|].
  destruct (String.compare k k'); try reflexivity.
  rewrite IH. apply perm_swap.
Qed.

Lemma sort_keys_Permutation ks : sort_keys ks ≡ₚ ks.
Proof. induction ks as [|k ks IH]; simpl; [done|]. by rewrite insert_key_Permutation, IH. Qed.

(** ** [url.ParseQuery] reads back what [Encode] prints *)

(** The bytes [QueryEscape] never lets through unchanged. *)
Definition special (c : ascii) : bool :=
  Ascii.eqb c "%" || Ascii.eqb c "+" || Ascii.eqb c "&" || Ascii.eqb c "=" || Ascii.eqb c ";".

Lemma unreserved_not_special c : unreserved c = true -> special c = false.
Proof. destruct c as [[] [] [] [] [] [] [] []]; vm_compute; congruence. Qed.

Lemma hex_digit_unreserved n : (n < 16)%nat -> unreserved (hex_digit n) = true.
Proof. intros Hn. do 16 (destruct n as [|n]; [reflexivity|]). lia. Qed.

Lemma unhex_hex_digit n : (n < 16)%nat -> unhex (hex_digit n) = Some n.
Proof. intros Hn. do 16 (destruct n as [|n]; [reflexivity|]). lia. Qed.

Lemma code_div_mod c :
  (code c / 16 < 16)%nat /\ (code c mod 16 < 16)%nat /\
  Ascii.ascii_of_nat (code c / 16 * 16 + code c mod 16) = c.
Proof.
  unfold code. pose proof (Ascii.nat_ascii_bounded c) as Hb.
  split; [apply Nat.Div0.div_lt_upper_bound; lia|]. split; [apply Nat.mod_upper_bound; lia|].
  rewrite (Nat.mul_comm _ 16), <- Nat.div_mod_eq. apply Ascii.ascii_nat_embedding.
Qed.

Lemma QueryUnescape_pct a b r x y :
  unhex a = Some x -> unhex b = Some y ->
  QueryUnescape (String "%" (String a (String b r))) =
  option_map (String (Ascii.ascii_of_nat (x * 16 + y))) (QueryUnescape r).
Proof. intros Ha Hb. simpl. now rewrite Ha, Hb. Qed.

Lemma QueryUnescape_QueryEscape s : QueryUnescape (QueryEscape s) = Some s.
Proof.
  induction s as [|c r IH]; simpl; [reflexivity|].
  destruct (unreserved c) eqn:Hu.
  - pose proof (unreserved_not_special c Hu) as Hs. unfold special in Hs.
    repeat rewrite orb_false_iff in Hs. destruct Hs as ((((Hp & Hq) & _) & _) & _).
    simpl. now rewrite Hp, Hq, IH.
  - destruct (Ascii.eqb_spec c " ") as [->|Hsp]; [simpl; now rewrite IH|].
    destruct (code_div_mod c) as (H1 & H2 & H3).
    rewrite (QueryUnescape_pct _ _ _ _ _ (unhex_hex_digit _ H1) (unhex_hex_digit _ H2)), IH, H3.
    reflexivity.
Qed.

(** No [&], [=] or [;] survives [QueryEscape]. *)
Lemma contains_QueryEscape c s :
  special c = true -> Ascii.eqb c "%" = false -> Ascii.eqb c "+" = false ->
  contains c (QueryEscape s) = false.
Proof.
  intros Hc Hp Hq. induction s as [|d r IH]; [reflexivity|]. cbn [QueryEscape].
  assert (Hne : forall e, unreserved e = true -> Ascii.eqb c e = false).
  { intros e He. destruct (Ascii.eqb_spec c e) as [<-|]; [|reflexivity].
    now rewrite (unreserved_not_special c He) in Hc. }
  destruct (unreserved d) eqn:Hu; [simpl; now rewrite (Hne d Hu), IH|].
  destruct (Ascii.eqb d " ").
  - simpl. now rewrite Hq, IH.
  - destruct (code_div_mod d) as (H1 & H2 & _). cbn [contains].
    now rewrite Hp, (Hne _ (hex_digit_unreserved _ H1)), (Hne _ (hex_digit_unreserved _ H2)), IH.
Qed.

Lemma contains_app c a b : contains c (a ++ b) = contains c a || contains c b.
Proof. induction a as [|d a IH]; simpl; [reflexivity|]. now rewrite IH, orb_assoc. Qed.

Lemma Cut_app_sep sep a b : contains sep a = false -> Cut sep (a ++ String sep b) = (a, b, true).
Proof.
  induction a as [|d a IH]; simpl.
  - now rewrite Ascii.eqb_refl.
  - intros Hc. apply orb_false_iff in Hc as [Hd Ha].
    rewrite Ascii.eqb_sym, Hd, (IH Ha). reflexivity.
Qed.

Lemma Cut_none sep a : contains sep a = false -> Cut sep a = (a, EmptyString, false).
Proof.
  induction a as [|d a IH]; simpl; [reflexivity|].
  intros Hc. apply orb_false_iff in Hc as [Hd Ha].
  rewrite Ascii.eqb_sym, Hd, (IH Ha). reflexivity.
Qed.

(** One [key=value] pair of the form body. *)
Definition seg (p : string * string) : string := QueryEscape (fst p) ++ String "=" (QueryEscape (snd p)).

Lemma contains_seg c p :
  special c = true -> Ascii.eqb c "%" = false -> Ascii.eqb c "+" = false -> Ascii.eqb c "=" = false ->
  contains c (seg p) = false.
Proof.
  intros H1 H2 H3 H4. unfold seg. rewrite contains_app. simpl.
  now rewrite !contains_QueryEscape, H4.
Qed.

Lemma seg_not_empty p : seg p <> EmptyString.
Proof. unfold seg. destruct (QueryEscape (fst p)); discriminate. Qed.

Lemma seg_length p : (1 <= String.length (seg p))%nat.
Proof. unfold seg. rewrite string_length_app. simpl. lia. Qed.

Lemma Cut_seg p : Cut "=" (seg p) = (QueryEscape (fst p), QueryEscape (snd p), true).
Proof. unfold seg. apply Cut_app_sep, contains_QueryEscape; reflexivity. Qed.

(** One turn of the loop on a non-empty query. *)
Lemma parse_query_step fuel q m err :
  q <> EmptyString ->
  parse_query_fuel (S fuel) q m err =
  let '(key, rest, _) := Cut "&" q in
  if contains ";" key then parse_query_fuel fuel rest m (Some semicolon_error)
  else if String.eqb key "" then parse_query_fuel fuel rest m err
  else
    let '(k, value, _) := Cut "=" key in
    match QueryUnescape k, QueryUnescape value with
    | Some k', Some v' => parse_query_fuel fuel rest (Add k' v' m) err
    | _, _ => parse_query_fuel fuel rest m (match err with None => Some escape_error | _ => err end)
    end.
Proof. destruct q; [congruence | reflexivity]. Qed.

(** The turn that reads one pair [seg p], the query then going on with
    [r]. *)
Lemma parse_query_seg fuel q p r b m err :
  q <> EmptyString -> Cut "&" q = (seg p, r, b) ->
  parse_query_fuel (S fuel) q m err = parse_query_fuel fuel r (Add (fst p) (snd p) m) err.
Proof.
  intros Hq Hc. rewrite (parse_query_step _ _ _ _ Hq), Hc. cbv beta iota.
  rewrite (contains_seg ";" p) by reflexivity.
  destruct (String.eqb_spec (seg p) EmptyString) as [E|_]; [contradiction (seg_not_empty p E)|].
  rewrite Cut_seg. cbv beta iota. now rewrite !QueryUnescape_QueryEscape.
Qed.

(** [Add] of the pairs, in order. *)
Definition add_pairs (m : values) (ps : list (string * string)) : values :=
  foldl (fun m p => Add (fst p) (snd p) m) m ps.

(** The loop reads a form body pair by pair. *)
Lemma parse_query_join ps fuel m err :
  (String.length (join_amp (map seg ps)) < fuel)%nat ->
  parse_query_fuel fuel (join_amp (map seg ps)) m err = (add_pairs m ps, err).
Proof.
  revert fuel m err. induction ps as [|p rest IH]; intros fuel m err Hf.
  - destruct fuel; [simpl in Hf; lia | reflexivity].
  - destruct fuel as [|fuel]; [lia|].
    destruct rest as [|p' rest'].
    + cbn [map join_amp] in *.
      rewrite (parse_query_seg fuel (seg p) p EmptyString false).
      * destruct fuel; [pose proof (seg_length p); lia | reflexivity].
      * apply seg_not_empty.
      * apply Cut_none, contains_seg; reflexivity.
    + change (join_amp (map seg (p :: p' :: rest')))
        with (seg p ++ String "&" (join_amp (map seg (p' :: rest')))) in *.
      rewrite (parse_query_seg fuel _ p (join_amp (map seg (p' :: rest'))) true).
      * apply IH. rewrite string_length_app in Hf. cbn [String.length] in Hf. lia.
      * destruct (seg p) eqn:E; [contradiction (seg_not_empty p E) | discriminate].
      * apply Cut_app_sep, contains_seg; reflexivity.
Qed.

(** The pairs [Encode] prints, key by key. *)
Definition encode_pairs (v : values) (ks : list string) : list (string * string) :=
  List.concat (map (fun k => map (pair k) (default [] (v !! k))) ks).

Lemma Encode_pairs v :
  Encode v = join_amp (map seg (encode_pairs v (sort_keys (map fst (map_to_list v))))).
Proof.
  unfold Encode, encode_pairs, encode_key. f_equal.
  rewrite concat_map, map_map. f_equal. apply map_ext. intros k. now rewrite map_map.
Qed.

Lemma add_pairs_app m l1 l2 : add_pairs m (l1 ++ l2) = add_pairs (add_pairs m l1) l2.
Proof. apply foldl_app. Qed.

(** The values of one key land in that key. *)
Lemma add_pairs_key k xs m :
  xs <> [] -> add_pairs m (map (pair k) xs) = <[k := (default [] (m !! k) ++ xs)%list]> m.
Proof.
  revert m. induction xs as [|x xs IH]; intros m Hne; [congruence|].
  destruct xs as [|x' xs'].
  - reflexivity.
  - change (add_pairs m (map (pair k) (x :: x' :: xs')))
      with (add_pairs (Add k x m) (map (pair k) (x' :: xs'))).
    rewrite IH by discriminate. unfold Add.
    rewrite lookup_insert_eq, insert_insert_eq. simpl. now rewrite <- app_assoc.
Qed.

Lemma add_pairs_keys v ks m :
  NoDup ks -> (forall k, k ∈ ks -> m !! k = None) ->
  (forall k, k ∈ ks -> exists xs, v !! k = Some xs /\ xs <> []) ->
  forall i, add_pairs m (encode_pairs v ks) !! i = if decide (i ∈ ks) then v !! i else m !! i.
Proof.
  revert m. induction ks as [|k ks IH]; intros m Hnd Hm Hv i; [reflexivity|].
  apply NoDup_cons in Hnd as [Hk Hnd].
  destruct (Hv k ltac:(set_solver)) as (xs & Hx & Hne).
  unfold encode_pairs. cbn [map List.concat]. fold (encode_pairs v ks).
  rewrite add_pairs_app, Hx. simpl default. rewrite add_pairs_key by exact Hne.
  rewrite (Hm k ltac:(set_solver)). simpl default.
  rewrite IH; [| exact Hnd | | intros k' Hk'; apply Hv; set_solver].
  - destruct (decide (i ∈ ks)) as [Hi|Hi].
    + rewrite decide_True by set_solver. reflexivity.
    + destruct (decide (i = k)) as [->|Hik].
      * rewrite decide_True by set_solver. by rewrite lookup_insert_eq.
      * rewrite decide_False by set_solver. rewrite lookup_insert_ne by congruence. reflexivity.
  - intros k' Hk'. rewrite lookup_insert_ne by set_solver. apply Hm. set_solver.
Qed.

Lemma map_fmap {A B} (f : A -> B) (l : list A) : map f l = f <$> l.
Proof. induction l as [|x l IH]; [reflexivity|]. simpl. rewrite IH. reflexivity. Qed.

(** The keys [Encode] walks through are the keys of the map. *)
Lemma sort_keys_elem (v : values) k : k ∈ sort_keys (map fst (map_to_list v)) <-> is_Some (v !! k).
Proof.
  rewrite sort_keys_Permutation, map_fmap, list_elem_of_fmap. split.
  - intros ([k' x] & -> & Hin). apply elem_of_map_to_list in Hin. simpl. eauto.
  - intros [x Hx]. exists (k, x). split; [reflexivity|]. by apply elem_of_map_to_list.
Qed.

Lemma sort_keys_NoDup (v : values) : NoDup (sort_keys (map fst (map_to_list v))).
Proof. rewrite sort_keys_Permutation, map_fmap. apply NoDup_fst_map_to_list. Qed.

(** [Add] keeps every key's list non-empty. *)
Lemma Add_nonempty key value (v : values) :
  (forall k xs, v !! k = Some xs -> xs <> []) ->
  forall k xs, Add key value v !! k = Some xs -> xs <> [].
Proof.
  intros Hv k xs. destruct (decide (key = k)) as [->|Hne].
  - rewrite lookup_Add_eq. intros [= <-]. destruct (default [] (v !! k)); discriminate.
  - rewrite lookup_Add_ne by exact Hne. apply Hv.
Qed.

(** The loop reads [Encode]'s output as the pairs it printed. *)
Lemma ParseQuery_pairs (v : values) :
  ParseQuery (Encode v) = (add_pairs ∅ (encode_pairs v (sort_keys (map fst (map_to_list v)))), None).
Proof. unfold ParseQuery. rewrite Encode_pairs. apply parse_query_join. lia. Qed.

(** Adding those pairs to an empty map rebuilds the map. *)
Lemma add_pairs_encode (v : values) :
  (forall k xs, v !! k = Some xs -> xs <> []) ->
  add_pairs ∅ (encode_pairs v (sort_keys (map fst (map_to_list v)))) = v.
Proof.
  intros Hne. apply map_eq. intros i. rewrite add_pairs_keys.
  - case_decide as Hi; [reflexivity|]. rewrite lookup_empty. symmetry.
    apply eq_None_not_Some. intros Hs. apply Hi. by apply sort_keys_elem.
  - apply sort_keys_NoDup.
  - intros k _. apply lookup_empty.
  - intros k Hk. apply sort_keys_elem in Hk as [xs Hx]. exists xs. split; [exact Hx|]. exact (Hne k xs Hx).
Qed.

End Values.

(** * A concrete form *)

Module ValuesExamples.
Import Values.

Definition form : values := Add "image" "aGVsbG8=" (Add "access_token" "24.new" ∅).

End ValuesExamples.
