(* ===== verification/Http.v ===== *)
(** * The network as the dispatcher sees it

    [http.Post] and [http.PostForm] send one request and return a response
    whose body [ioutil.ReadAll] reads.  The remote side is a deterministic
    function of the requests sent so far and the new request; it answers
    with a transport error, or a response whose body either fails to read
    or reads as a byte string.  Status codes and headers are not modelled:
    the dispatcher never looks at them.  Every request sent is appended to
    a log, which is how the theorems count network calls.  The network
    also counts the response bodies that are open: a response opens one,
    [resp.Body.Close()] closes it. *)

From Stdlib Require Import String List ZArith.
From S2P Require Import Spec2Rocq.
Import ListNotations.
Open Scope string_scope.

Module Http.

Record request : Type := mkRequest {
  rq_url : string;
  rq_ctype : string;
  rq_body : string
}.

Inductive resp_body : Type :=
| ReadErr (msg : string)
| BodyBytes (data : string).

Inductive response : Type :=
| TransportErr (msg : string)
| Resp (body : resp_body).

Record net : Type := mkNet {
  n_server : list request -> request -> response;
  n_log : list request;
  n_open : nat            (** response bodies not yet closed *)
}.

(** Send one request: it is logged whatever the answer; a response comes
    with an open body. *)
Definition send (rq : request) : ST net resp_body :=
  fun n =>
    let log := (n_log n ++ [rq])%list in
    match n_server n (n_log n) rq with
    | TransportErr m => (Err (ETransport m), mkNet (n_server n) log (n_open n))
    | Resp b => (Ok b, mkNet (n_server n) log (S (n_open n)))
    end.

Definition close_net (n : net) : net := mkNet (n_server n) (n_log n) (pred (n_open n)).

(** [resp.Body.Close()]; the callers discard its error. *)
Definition Close : ST net unit := fun n => (Ok tt, close_net n).

(** [http.Post(url, contentType, body)] *)
Definition Post (url ctype body : string) : ST net resp_body :=
  send (mkRequest url ctype body).

(** [ioutil.ReadAll(resp.Body)] *)
Definition ReadAll {S} (b : resp_body) : ST S string :=
  match b with
  | ReadErr m => throw (ERead m)
  | BodyBytes d => ret d
  end.

Lemma send_log rq n : n_log (snd (send rq n)) = (n_log n ++ [rq])%list.
Proof. unfold send. destruct (n_server n (n_log n) rq); reflexivity. Qed.

(** A response opens exactly one body, a transport error none. *)
Lemma send_open rq n :
  n_open (snd (send rq n)) = match fst (send rq n) with Ok _ => S (n_open n) | Err _ => n_open n end.
Proof. unfold send. destruct (n_server n (n_log n) rq); reflexivity. Qed.

End Http.
