(* ===== verification/Token.v ===== *)
(** * The token manager ([lib.AccessToken], outside src/)

    The package [github.com/comeonjy/go-baiduai/lib] is not among the
    sources; this file models it from the specification: an object holding
    the application key and secret, a pluggable storage backend and the
    exported field [AccessToken]; [SetAccessToken] reuses the stored token
    while it is unexpired and otherwise asks the OAuth endpoint for a new
    one, stores it and copies it into the field.

    The storage backend is an interface ([lib.Storage]: get and set of
    the serialized token state); here a type class, so that what the
    dispatcher's theorems need from a backend is stated once
    ([StorageLaws]) and any instance discharges it.  The serialized form
    is ["<expiry>:<token>"] (the expiry printed with [%d]).  The OAuth
    answer is read with [json.Unmarshal] into
    [{access_token, expires_in, error, error_description}]; the response
    body is closed once read. *)

From Stdlib Require Import String List ZArith Lia Bool.
From S2P Require Import Spec2Rocq GoFmt Json JsonDecode Http.
Import ListNotations.
Open Scope string_scope.

Module Token.
Import Decode Http.

Record token_state : Type := mkTokenState {
  ts_token : string;
  ts_expires_at : Z
}.

(** [lib.Storage] *)
Class Storage (St : Type) : Type := {
  storage_get : St -> option string;
  storage_set : St -> string -> St
}.

(** What the token manager relies on: a value set is read back. *)
Class StorageLaws (St : Type) `{Storage St} : Prop := {
  storage_get_set : forall s x, storage_get (storage_set s x) = Some x
}.

(** An in-memory backend. *)
#[export] Instance mem_storage : Storage (option string) := {
  storage_get := fun s => s;
  storage_set := fun _ x => Some x
}.

#[export] Instance mem_storage_laws : StorageLaws (option string).
Proof. constructor. reflexivity. Qed.

Section WithStorage.
Context {St : Type} `{Storage St}.

(** [lib.AccessToken] *)
Record AccessToken : Type := mkAccessToken {
  appKey : string;
  appSecret : string;
  store : St;
  AccessToken_ : string   (** the exported field [AccessToken] *)
}.

(** [lib.NewToken(appKey, appSecret, store)] *)
Definition NewToken (key secret : string) (st : St) : AccessToken :=
  mkAccessToken key secret st "".

Definition serialize (t : token_state) : string :=
  GoFmt.FormatInt (ts_expires_at t) ++ ":" ++ ts_token t.

Definition deserialize (s : string) : option token_state :=
  match GoFmt.parse_api_error s with
  | Some (exp, tok) => Some (mkTokenState tok exp)
  | None => None
  end.

Definition oauth_request (key secret : string) : request :=
  mkRequest ("https://aip.baidubce.com/oauth/2.0/token?grant_type=client_credentials&client_id="
             ++ key ++ "&client_secret=" ++ secret) "" "".

Definition token_reply : gstruct :=
  [("access_token", GString ""); ("expires_in", GInt64 0);
   ("error", GString ""); ("error_description", GString "")].

Definition set_field (tk : AccessToken) (tok : string) : AccessToken :=
  mkAccessToken (appKey tk) (appSecret tk) (store tk) tok.

Definition save (tk : AccessToken) (t : token_state) : AccessToken :=
  mkAccessToken (appKey tk) (appSecret tk) (storage_set (store tk) (serialize t)) (ts_token t).

(** A stored token is used while [now] is before its expiry. *)
Definition cached (now : Z) (tk : AccessToken) : option token_state :=
  match storage_get (store tk) with
  | Some s => match deserialize s with
              | Some t => if (now <? ts_expires_at t)%Z then Some t else None
              | None => None
              end
  | None => None
  end.

(** Ask the OAuth endpoint; every failure is a token error.  The response
    body is closed once read. *)
Definition fetch (tk : AccessToken) : ST net token_state :=
  fun n =>
    let '(r, n') := send (oauth_request (appKey tk) (appSecret tk)) n in
    match r with
    | Err e => (Err (EToken e), n')
    | Ok (ReadErr m) => (Err (EToken (ERead m)), close_net n')
    | Ok (BodyBytes d) =>
        match Unmarshal "lib.tokenReply" d token_reply with
        | (Err e, _) => (Err (EToken e), close_net n')
        | (Ok _, st) =>
            match get_field "error" st, get_field "error_description" st,
                  get_field "access_token" st, get_field "expires_in" st with
            | Some (GString err), Some (GString desc), Some (GString tok), Some (GInt64 ttl) =>
                if negb (String.eqb err "") then (Err (EToken (ENew (err ++ ": " ++ desc))), close_net n')
                else (Ok (mkTokenState tok ttl), close_net n')
            | _, _, _, _ => (Err (EToken (ENew "token reply")), close_net n')
            end
        end
    end.

(** [SetAccessToken()] of [*AccessToken], at time [now]: the object and the
    network are its state. *)
Definition SetAccessToken (now : Z) : ST (AccessToken * net) unit :=
  fun '(tk, n) =>
    match cached now tk with
    | Some t => (Ok tt, (set_field tk (ts_token t), n))
    | None =>
        match fetch tk n with
        | (Ok t, n') =>
            let t' := mkTokenState (ts_token t) (wrap64 (now + ts_expires_at t)) in
            (Ok tt, (save tk t', n'))
        | (Err e, n') => (Err e, (tk, n'))
        end
    end.

(** ** Lemmas *)

Lemma deserialize_serialize t :
  in_int64 (ts_expires_at t) = true -> deserialize (serialize t) = Some t.
Proof.
  intros Ht. unfold deserialize, serialize.
  fold (GoFmt.api_error_msg (ts_expires_at t) (ts_token t)).
  rewrite GoFmt.parse_api_error_msg by exact Ht. now destruct t.
Qed.

Lemma SetAccessToken_cached now tk n t :
  cached now tk = Some t ->
  SetAccessToken now (tk, n) = (Ok tt, (set_field tk (ts_token t), n)).
Proof. intros Hc. unfold SetAccessToken. now rewrite Hc. Qed.

Lemma SetAccessToken_refresh now tk n :
  cached now tk = None ->
  SetAccessToken now (tk, n) =
  match fetch tk n with
  | (Ok t, n') => (Ok tt, (save tk (mkTokenState (ts_token t) (wrap64 (now + ts_expires_at t))), n'))
  | (Err e, n') => (Err e, (tk, n'))
  end.
Proof. intros Hc. unfold SetAccessToken. now rewrite Hc. Qed.

(** [fetch] sends exactly the OAuth request. *)
Lemma fetch_log tk n :
  n_log (snd (fetch tk n)) = (n_log n ++ [oauth_request (appKey tk) (appSecret tk)])%list.
Proof.
  unfold fetch. rewrite <- (send_log (oauth_request (appKey tk) (appSecret tk)) n).
  destruct (send _ n) as [r n']. simpl.
  destruct r as [[m|d]|e]; try reflexivity.
  destruct (Unmarshal _ d token_reply) as [[[]|e] st]; try reflexivity.
  destruct (get_field "error" st) as [[]|], (get_field "error_description" st) as [[]|],
    (get_field "access_token" st) as [[]|], (get_field "expires_in" st) as [[]|];
    try reflexivity.
  case_ifs; reflexivity.
Qed.

(** [fetch] closes the body it opened. *)
Lemma fetch_open tk n : n_open (snd (fetch tk n)) = n_open n.
Proof.
  unfold fetch. pose proof (send_open (oauth_request (appKey tk) (appSecret tk)) n) as Ho.
  destruct (send _ n) as [r n']. simpl in Ho.
  destruct r as [[m|d]|e]; simpl; rewrite ?Ho; try reflexivity.
  destruct (Unmarshal _ d token_reply) as [[[]|e] st]; simpl; rewrite ?Ho; try reflexivity.
  destruct (get_field "error" st) as [[]|], (get_field "error_description" st) as [[]|],
    (get_field "access_token" st) as [[]|], (get_field "expires_in" st) as [[]|];
    simpl; rewrite ?Ho; try reflexivity.
  case_ifs; simpl; rewrite Ho; reflexivity.
Qed.

Lemma cached_some now tk t :
  cached now tk = Some t ->
  exists s, storage_get (store tk) = Some s /\ deserialize s = Some t /\ (now < ts_expires_at t)%Z.
Proof.
  unfold cached. destruct (storage_get (store tk)) as [s|]; [|discriminate].
  destruct (deserialize s) as [t'|] eqn:Hd; [|discriminate].
  destruct (Z.ltb_spec now (ts_expires_at t')); [|discriminate].
  intros [= <-]. exists s. auto.
Qed.

(** After [SetAccessToken] succeeds, the exported field [AccessToken]
    holds the token of the state the storage holds: the cached state when
    one was unexpired, else the fresh one it stored (its expiry kept at
    [int64] width, so it reads back). *)
Theorem SetAccessToken_field_stored `{!StorageLaws St} now tk n tk' n' :
  SetAccessToken now (tk, n) = (Ok tt, (tk', n')) ->
  exists s t, storage_get (store tk') = Some s /\ deserialize s = Some t /\
              ts_token t = AccessToken_ tk'.
Proof.
  destruct (cached now tk) as [t|] eqn:Hc.
  - rewrite (SetAccessToken_cached _ _ _ _ Hc). intros [= <- _].
    destruct (cached_some _ _ _ Hc) as (s & Hs & Hd & _).
    now exists s, t.
  - rewrite (SetAccessToken_refresh _ _ _ Hc).
    destruct (fetch tk n) as [[t|e] n2]; [|discriminate]. intros [= <- _].
    eexists _, _. simpl. rewrite storage_get_set. split; [reflexivity|].
    split; [apply deserialize_serialize, in_int64_wrap64 | reflexivity].
Qed.

(** A state just saved is read back while unexpired. *)
Lemma cached_save `{!StorageLaws St} now tk t :
  in_int64 (ts_expires_at t) = true -> (now < ts_expires_at t)%Z ->
  cached now (save tk t) = Some t.
Proof.
  intros Hr Hlt. unfold cached, save. simpl. rewrite storage_get_set.
  rewrite (deserialize_serialize t Hr). now rewrite (proj2 (Z.ltb_lt _ _) Hlt).
Qed.

End WithStorage.

Arguments AccessToken St : clear implicits.

End Token.
