(* ===== verification/Body.v ===== *)
(** * The request dispatcher (src/body/body.go)

    [Reply] is the envelope [BaseReply] with an embedded empty interface;
    for [encoding/json] its fields are [error_code], [log_id], [error_msg]
    (the promoted fields of the embedded struct, by their tags) and
    [Interface] (an embedded interface is a field named after its type).
    [Body] holds the token object.  The caller's memory that [PostJson]
    and [PostForm] write is explicit state: the world (the [Body] the
    receiver points to, the clock, the network) and the result the [res]
    pointer designates; [PostForm] also writes the caller's [url.Values]
    map. *)

From stdpp Require Import base gmap strings list.
From Stdlib Require Import String Ascii List ZArith Lia Bool.
From S2P Require Import Spec2Rocq GoFmt Json JsonDecode UrlValues Http Token.
Open Scope string_scope.
Open Scope go_scope.

Module Body.
Import Json Decode Values Http Token.

(** [type BaseReply struct] *)
Record BaseReply : Type := mkBaseReply {
  ErrorCode : Z;
  LogId : Z;
  ErrorMsg : string
}.

(** [type Interface interface{}]: it holds a value of any type; what
    [json.Unmarshal] stores in an empty interface is the generic value it
    decoded, and [nil] is [None]. *)
Definition Interface_type : Type := option json.

(** [type Reply struct { BaseReply; Interface }] *)
Record Reply : Type := mkReply {
  base_reply : BaseReply;
  Interface : Interface_type
}.

(** The fields [encoding/json] sees in a [Reply]. *)
Definition reply_fields (r : Reply) : gstruct :=
  [("error_code", GInt64 (ErrorCode (base_reply r)));
   ("log_id", GInt64 (LogId (base_reply r)));
   ("error_msg", GString (ErrorMsg (base_reply r)));
   ("Interface", GIface (Interface r))].

(** Back from the fields; the decoder keeps their shape (lemma
    [reply_fields_of_fields]), so the fallback [r] is never used. *)
Definition reply_of_fields (st : gstruct) (r : Reply) : Reply :=
  match st with
  | [(_, GInt64 c); (_, GInt64 l); (_, GString m); (_, GIface i)] =>
      mkReply (mkBaseReply c l m) i
  | _ => r
  end.

(** [json.Unmarshal(body, res)] with [res *Reply]. *)
Definition unmarshal_reply (data : string) : ST Reply unit :=
  fun r => let '(x, st) := Unmarshal "body.Reply" data (reply_fields r) in
           (x, reply_of_fields st r).

(** [(b *Body) checkErr(baseReply BaseReply, err error) error] *)
Definition checkErr (baseReply : BaseReply) (err : option go_error) : option go_error :=
  match err with
  | Some e => Some e
  | None =>
      if negb (ErrorCode baseReply =? 0)%Z
      then Some (ENew (GoFmt.api_error_msg (ErrorCode baseReply) (ErrorMsg baseReply)))
      else None
  end.

(** [Reply] invariant: its [int64] fields hold [int64] values. *)
Definition reply_wf (r : Reply) : bool := gstruct_wf (reply_fields r).

Lemma reply_fields_of_fields st r r0 :
  shape st = shape (reply_fields r0) -> reply_fields (reply_of_fields st r) = st.
Proof.
  unfold shape. intros Hs.
  destruct st as [|[n1 v1] [|[n2 v2] [|[n3 v3] [|[n4 v4] [|]]]]]; simpl in Hs;
    try discriminate.
  injection Hs as -> H1 -> H2 -> H3 -> H4.
  destruct v1, v2, v3, v4; simpl in *; try discriminate; reflexivity.
Qed.

Lemma unmarshal_reply_fields data r :
  reply_fields (snd (unmarshal_reply data r)) = snd (Unmarshal "body.Reply" data (reply_fields r)).
Proof.
  unfold unmarshal_reply.
  destruct (Unmarshal_shape_wf "body.Reply" data (reply_fields r)) as [Hs _].
  destruct (Unmarshal "body.Reply" data (reply_fields r)) as [x st] eqn:E. simpl in *.
  exact (reply_fields_of_fields st r r Hs).
Qed.

Lemma unmarshal_reply_wf_helper data r :
  reply_wf r = true -> reply_wf (snd (unmarshal_reply data r)) = true.
Proof.
  unfold reply_wf. rewrite unmarshal_reply_fields.
  apply (Unmarshal_shape_wf "body.Reply" data (reply_fields r)).
Qed.

Lemma unmarshal_reply_get name data r :
  get_field name (reply_fields (snd (unmarshal_reply data r))) =
  get_field name (snd (Unmarshal "body.Reply" data (reply_fields r))).
Proof. now rewrite unmarshal_reply_fields. Qed.

(** A field no member of the response names (up to case) keeps the
    value the caller left in [res]. *)
Lemma unmarshal_reply_untouched name data kvs r :
  Json.json_parse data = Some (JObj kvs) ->
  (forall k j, In (k, j) kvs -> fold_name k <> fold_name name) ->
  get_field name (reply_fields (snd (unmarshal_reply data r))) = get_field name (reply_fields r).
Proof.
  intros Hp Hk. rewrite unmarshal_reply_get. unfold Unmarshal. rewrite Hp. simpl.
  destruct (decode_members kvs (reply_fields r) None) as [st e] eqn:E. simpl.
  replace st with (fst (decode_members kvs (reply_fields r) None)) by now rewrite E.
  apply decode_members_untouched. intros k j Hin Hf.
  exact (Hk k j Hin (find_field_fold _ _ _ Hf)).
Qed.

(** The member named [error_code] up to ASCII case selects [ErrorCode]. *)
Lemma find_error_code k r :
  fold_name k = "ERROR_CODE" -> find_field k (reply_fields r) = Some "error_code".
Proof.
  intros Hk. unfold find_field. cbn [find reply_fields fst].
  destruct (String.eqb_spec "error_code" k) as [<-|]; [reflexivity|].
  destruct (String.eqb_spec "log_id" k) as [<-|]; [discriminate Hk|].
  destruct (String.eqb_spec "error_msg" k) as [<-|]; [discriminate Hk|].
  destruct (String.eqb_spec "Interface" k) as [<-|]; [discriminate Hk|].
  now rewrite Hk.
Qed.

Section WithStorage.
Context {St : Type} `{Storage St}.

(** [type Body struct { Token *lib.AccessToken }] *)
Record Body : Type := mkBody { Token : AccessToken St }.

(** [New(appKey, appSecret, store)] *)
Definition New (key secret : string) (st : St) : Body :=
  mkBody (NewToken key secret st).

(** The world a call runs in: the [Body] the receiver points to, the
    current time and the network. *)
Record world : Type := mkWorld {
  w_body : Body;
  w_now : Z;
  w_net : net
}.

Definition set_net (w : world) (n : net) : world := mkWorld (w_body w) (w_now w) n.

(** [b.Token.SetAccessToken()] *)
Definition set_token : ST world unit :=
  fun w => let '(x, (tk, n)) := SetAccessToken (w_now w) (Token (w_body w), w_net w) in
           (x, mkWorld (mkBody tk) (w_now w) n).

Definition net_call {A} (m : ST net A) : ST world A :=
  fun w => let '(x, n) := m (w_net w) in (x, set_net w n).

(** [b.Token.AccessToken] *)
Definition token_of (w : world) : string := AccessToken_ (Token (w_body w)).

Definition json_url (url tok : string) : string := url ++ "?access_token=" ++ tok.

(** [(b *Body) PostJson(url string, v []byte, res *Reply) error] *)
Definition PostJson (url v : string) : ST (world * Reply) unit :=
  with_stack (on_fst set_token) ;;;
  tok <- gets (fun s => token_of (fst s)) ;;
  resp <- with_stack (on_fst (net_call (Post (json_url url tok) "application/json" v))) ;;
  defer (on_fst (net_call Close)) (
    body <- with_stack (ReadAll resp) ;;
    with_stack (on_snd (unmarshal_reply body)) ;;;
    r <- gets snd ;;
    if negb (ErrorCode (base_reply r) =? 0)%Z
    then throw (ENew (GoFmt.api_error_msg (ErrorCode (base_reply r)) (ErrorMsg (base_reply r))))
    else ret tt).

(** [PostJson] up to the decoding of the response (body.go lines 43-61),
    before its check of [res.ErrorCode]. *)
Definition decode_reply (url v : string) : ST (world * Reply) unit :=
  with_stack (on_fst set_token) ;;;
  tok <- gets (fun s => token_of (fst s)) ;;
  resp <- with_stack (on_fst (net_call (Post (json_url url tok) "application/json" v))) ;;
  defer (on_fst (net_call Close)) (
    body <- with_stack (ReadAll resp) ;;
    with_stack (on_snd (unmarshal_reply body))).

(** [(b *Body) PostForm(url string, v url.Values, res interface{}) error],
    [res] pointing to a struct of Go type [tyname]. *)
Definition PostForm (tyname url : string) : ST (world * (values * gstruct)) unit :=
  with_stack (on_fst set_token) ;;;
  tok <- gets (fun s => token_of (fst s)) ;;
  modify (fun s => (fst s, (Add "access_token" tok (fst (snd s)), snd (snd s)))) ;;;
  form <- gets (fun s => Encode (fst (snd s))) ;;
  resp <- with_stack (on_fst (net_call (Post url "application/x-www-form-urlencoded" form))) ;;
  defer (on_fst (net_call Close)) (
    body <- with_stack (ReadAll resp) ;;
    with_stack (on_snd (on_snd (Unmarshal tyname body))) ;;;
    ret tt).

(** The request [PostJson] sends once it holds the token [tok]. *)
Definition json_request (url tok v : string) : request :=
  mkRequest (json_url url tok) "application/json" v.

(** ** Run lemmas: each handler as its branches *)

Lemma PostJson_run url v w r :
  PostJson url v (w, r) =
  match set_token w with
  | (Err e, w1) => (Err (EWithStack e), (w1, r))
  | (Ok _, w1) =>
      match send (json_request url (token_of w1) v) (w_net w1) with
      | (Err e, n2) => (Err (EWithStack e), (set_net w1 n2, r))
      | (Ok (ReadErr m), n2) => (Err (EWithStack (ERead m)), (set_net w1 (close_net n2), r))
      | (Ok (BodyBytes d), n2) =>
          match unmarshal_reply d r with
          | (Err e, r') => (Err (EWithStack e), (set_net w1 (close_net n2), r'))
          | (Ok _, r') =>
              (if negb (ErrorCode (base_reply r') =? 0)%Z
               then Err (ENew (GoFmt.api_error_msg (ErrorCode (base_reply r'))
                                                   (ErrorMsg (base_reply r'))))
               else Ok tt, (set_net w1 (close_net n2), r'))
          end
      end
  end.
Proof.
  unfold PostJson, bind, with_stack, on_fst, on_snd, gets, throw, ret, defer.
  destruct (set_token w) as [[[]|e] w1]; [|reflexivity]. simpl.
  unfold net_call, Post, Close. fold (json_request url (token_of w1) v).
  destruct (send _ (w_net w1)) as [[[m|d]|e] n2]; simpl; try reflexivity.
  destruct (unmarshal_reply d r) as [[[]|e] r']; simpl; [destruct (negb _)|]; reflexivity.
Qed.

Definition form_request (url : string) (vs : values) : request :=
  mkRequest url "application/x-www-form-urlencoded" (Encode vs).

Lemma PostForm_run tyname url w vs st :
  PostForm tyname url (w, (vs, st)) =
  match set_token w with
  | (Err e, w1) => (Err (EWithStack e), (w1, (vs, st)))
  | (Ok _, w1) =>
      let vs' := Add "access_token" (token_of w1) vs in
      match send (form_request url vs') (w_net w1) with
      | (Err e, n2) => (Err (EWithStack e), (set_net w1 n2, (vs', st)))
      | (Ok (ReadErr m), n2) => (Err (EWithStack (ERead m)), (set_net w1 (close_net n2), (vs', st)))
      | (Ok (BodyBytes d), n2) =>
          match Unmarshal tyname d st with
          | (Err e, st') => (Err (EWithStack e), (set_net w1 (close_net n2), (vs', st')))
          | (Ok _, st') => (Ok tt, (set_net w1 (close_net n2), (vs', st')))
          end
      end
  end.
Proof.
  unfold PostForm, bind, with_stack, on_fst, on_snd, gets, modify, ret, defer.
  destruct (set_token w) as [[[]|e] w1]; [|reflexivity]. simpl.
  unfold net_call, Post, Close. fold (form_request url (Add "access_token" (token_of w1) vs)).
  destruct (send _ (w_net w1)) as [[[m|d]|e] n2]; simpl; try reflexivity.
  destruct (Unmarshal tyname d st) as [[[]|e] st']; reflexivity.
Qed.

(** What the server answers to the next request [rq] sent from [w]. *)
Definition answers (w : world) (rq : request) : response :=
  n_server (w_net w) (n_log (w_net w)) rq.

Lemma send_answers w rq b :
  answers w rq = Resp b ->
  send rq (w_net w) = (Ok b, mkNet (n_server (w_net w)) (n_log (w_net w) ++ [rq])%list (S (n_open (w_net w)))).
Proof. unfold answers, send. intros ->. reflexivity. Qed.

Lemma PostJson_log url v w r :
  n_log (w_net (fst (snd (PostJson url v (w, r))))) =
  match set_token w with
  | (Err _, w1) => n_log (w_net w1)
  | (Ok _, w1) => (n_log (w_net w1) ++ [json_request url (token_of w1) v])%list
  end.
Proof.
  rewrite PostJson_run. destruct (set_token w) as [[[]|e] w1]; [|reflexivity].
  pose proof (send_log (json_request url (token_of w1) v) (w_net w1)) as Hl.
  destruct (send _ (w_net w1)) as [[[m|d]|e] n2]; simpl in *;
    [| destruct (unmarshal_reply d r) as [[[]|e] r']; simpl |]; exact Hl.
Qed.

(** The token manager sends the OAuth request exactly when no unexpired
    token is stored. *)
Lemma set_token_log w :
  n_log (w_net (snd (set_token w))) =
  (n_log (w_net w) ++ match cached (w_now w) (Token (w_body w)) with
                      | Some _ => []
                      | None => [oauth_request (appKey (Token (w_body w)))
                                               (appSecret (Token (w_body w)))]
                      end)%list.
Proof.
  unfold set_token.
  destruct (cached (w_now w) (Token (w_body w))) as [t|] eqn:Hc.
  - rewrite (SetAccessToken_cached _ _ _ _ Hc). simpl. now rewrite app_nil_r.
  - rewrite (SetAccessToken_refresh _ _ _ Hc).
    pose proof (fetch_log (Token (w_body w)) (w_net w)) as Hl.
    destruct (fetch _ (w_net w)) as [[t|e] n']; simpl in *; exact Hl.
Qed.

(** The token step leaves no body open. *)
Lemma set_token_open w : n_open (w_net (snd (set_token w))) = n_open (w_net w).
Proof.
  unfold set_token.
  destruct (cached (w_now w) (Token (w_body w))) as [t|] eqn:Hc.
  - now rewrite (SetAccessToken_cached _ _ _ _ Hc).
  - rewrite (SetAccessToken_refresh _ _ _ Hc).
    pose proof (fetch_open (Token (w_body w)) (w_net w)) as Ho.
    destruct (fetch _ (w_net w)) as [[t|e] n']; simpl in *; exact Ho.
Qed.

Lemma PostForm_values tyname url w w1 vs st :
  set_token w = (Ok tt, w1) ->
  fst (snd (snd (PostForm tyname url (w, (vs, st))))) = Add "access_token" (token_of w1) vs /\
  n_log (w_net (fst (snd (PostForm tyname url (w, (vs, st)))))) =
  (n_log (w_net w1) ++ [form_request url (Add "access_token" (token_of w1) vs)])%list.
Proof.
  intros Ht. rewrite PostForm_run, Ht. simpl.
  pose proof (send_log (form_request url (Add "access_token" (token_of w1) vs)) (w_net w1)) as Hl.
  destruct (send _ (w_net w1)) as [[[m|d]|e] n2]; simpl in *;
    [| destruct (Unmarshal tyname d st) as [[[]|e] st']; simpl |]; auto.
Qed.

(** ** The dispatcher's properties *)

(** C1: [PostJson] returns [nil] exactly when the token is obtained, the
    endpoint answers with a readable body, the body decodes into the
    result without error, and the decoded [error_code] is 0. *)
Theorem PostJson_ok_iff url v w r :
  fst (PostJson url v (w, r)) = Ok tt <->
  exists w1 data r',
    set_token w = (Ok tt, w1) /\
    answers w1 (json_request url (token_of w1) v) = Resp (BodyBytes data) /\
    unmarshal_reply data r = (Ok tt, r') /\
    ErrorCode (base_reply r') = 0%Z.
Proof.
  rewrite PostJson_run. split.
  - destruct (set_token w) as [[[]|e] w1]; [|discriminate].
    unfold send. fold (answers w1 (json_request url (token_of w1) v)).
    destruct (answers w1 _) as [m|[m|d]] eqn:Ha; simpl; try discriminate.
    destruct (unmarshal_reply d r) as [[[]|e] r'] eqn:Hu; [|discriminate].
    destruct (Z.eqb_spec (ErrorCode (base_reply r')) 0); [|discriminate].
    intros _. now exists w1, d, r'.
  - intros (w1 & d & r' & Ht & Ha & Hu & Hc).
    rewrite Ht, (send_answers _ _ _ Ha), Hu, Hc. reflexivity.
Qed.

(** C2: when the decoded [error_code] is not 0, [PostJson] fails with
    [errors.New(fmt.Sprintf("%d:%s", code, msg))], a message from which
    the code and the message are read back. *)
Theorem PostJson_api_error url v w w1 r r' data :
  reply_wf r = true ->
  set_token w = (Ok tt, w1) ->
  answers w1 (json_request url (token_of w1) v) = Resp (BodyBytes data) ->
  unmarshal_reply data r = (Ok tt, r') ->
  ErrorCode (base_reply r') <> 0%Z ->
  exists m, fst (PostJson url v (w, r)) = Err (ENew m) /\
            GoFmt.parse_api_error m = Some (ErrorCode (base_reply r'), ErrorMsg (base_reply r')).
Proof.
  intros Hwf Ht Ha Hu Hc.
  rewrite PostJson_run, Ht, (send_answers _ _ _ Ha), Hu.
  destruct (Z.eqb_spec (ErrorCode (base_reply r')) 0) as [|_]; [contradiction|].
  eexists. split; [reflexivity|]. apply GoFmt.parse_api_error_msg.
  pose proof (unmarshal_reply_wf_helper data r Hwf) as Hwf'. rewrite Hu in Hwf'.
  unfold reply_wf in Hwf'. simpl in Hwf'. now destruct (in_int64 _).
Qed.

(** C3: when the token cannot be obtained, [PostJson] returns that error
    (with a stack), sends nothing to the endpoint and leaves the result
    untouched. *)
Theorem PostJson_token_error url v w w1 r e :
  set_token w = (Err e, w1) ->
  PostJson url v (w, r) = (Err (EWithStack e), (w1, r)).
Proof. intros Ht. now rewrite PostJson_run, Ht. Qed.

(** C4: a response body that is not JSON makes [PostJson] fail with the
    syntax error, the result untouched. *)
Theorem PostJson_malformed url v w w1 r data :
  set_token w = (Ok tt, w1) ->
  answers w1 (json_request url (token_of w1) v) = Resp (BodyBytes data) ->
  Json.json_parse data = None ->
  fst (PostJson url v (w, r)) = Err (EWithStack ESyntax) /\ snd (snd (PostJson url v (w, r))) = r.
Proof.
  intros Ht Ha Hp.
  rewrite PostJson_run, Ht, (send_answers _ _ _ Ha).
  unfold unmarshal_reply, Unmarshal. rewrite Hp. simpl. split; [reflexivity|].
  destruct r as [[c l m] i]. reflexivity.
Qed.

(** C5: once it holds the token, [PostJson] sends one request, to
    [url?access_token=<token>], with content type [application/json] and
    the caller's bytes as body, whatever the outcome. *)
Theorem PostJson_request url v w w1 r :
  set_token w = (Ok tt, w1) ->
  n_log (w_net (fst (snd (PostJson url v (w, r))))) =
  (n_log (w_net w1) ++ [mkRequest (url ++ "?access_token=" ++ token_of w1) "application/json" v])%list.
Proof.
  intros Ht. now rewrite PostJson_log, Ht.
Qed.

(** C6: one call of [PostJson] asks the OAuth endpoint at most once, and
    not at all while an unexpired token is stored, then sends at most one
    request to the API endpoint. *)
Theorem PostJson_token_once url v w r :
  let tk := Token (w_body w) in
  exists post,
    n_log (w_net (fst (snd (PostJson url v (w, r))))) =
    (n_log (w_net w) ++ match cached (w_now w) tk with
                        | Some _ => []
                        | None => [oauth_request (appKey tk) (appSecret tk)]
                        end ++ post)%list /\
    (post = [] \/ exists tok, post = [json_request url tok v]).
Proof.
  simpl. rewrite PostJson_log. pose proof (set_token_log w) as Hl.
  destruct (set_token w) as [[[]|e] w1]; simpl in Hl; rewrite Hl.
  - eexists. rewrite app_assoc. split; [reflexivity|]. right. eauto.
  - exists []. rewrite app_assoc, app_nil_r. split; [reflexivity|]. now left.
Qed.

(** C7: [PostJson] is the decoding of the response followed by
    [checkErr] on the decoded envelope: the inline check of body.go lines
    62-64 and the unused helper [checkErr] (lines 91-99) agree, so the
    single envelope-validation step the design asks for is [checkErr]. *)
Theorem PostJson_checkErr url v s :
  PostJson url v s =
  let '(x, s') := decode_reply url v s in
  (of_err (checkErr (base_reply (snd s')) (err_of x)), s').
Proof.
  destruct s as [w r]. rewrite PostJson_run.
  unfold decode_reply, bind, with_stack, on_fst, on_snd, gets, ret, defer.
  destruct (set_token w) as [[[]|e] w1]; [|reflexivity]. simpl.
  unfold net_call, Post, Close. fold (json_request url (token_of w1) v).
  destruct (send _ (w_net w1)) as [[[m|d]|e] n2]; simpl; try reflexivity.
  destruct (unmarshal_reply d r) as [[[]|e] r']; simpl; [|reflexivity].
  unfold checkErr. destruct (negb _); reflexivity.
Qed.

(** C8: [PostForm] never looks at the envelope: whenever the body
    decodes into the result, it returns [nil], whatever [error_code] the
    body carries (unlike [PostJson], C2). *)
Theorem PostForm_ignores_error_code tyname url w w1 vs st st' data :
  set_token w = (Ok tt, w1) ->
  answers w1 (form_request url (Add "access_token" (token_of w1) vs)) = Resp (BodyBytes data) ->
  Unmarshal tyname data st = (Ok tt, st') ->
  PostForm tyname url (w, (vs, st)) =
  (Ok tt, (set_net w1 (mkNet (n_server (w_net w1))
                             (n_log (w_net w1) ++ [form_request url (Add "access_token" (token_of w1) vs)])
                             (n_open (w_net w1))),
           (Add "access_token" (token_of w1) vs, st'))).
Proof.
  intros Ht Ha Hu. rewrite PostForm_run, Ht. simpl.
  now rewrite (send_answers _ _ _ Ha), Hu.
Qed.

(** C9: [PostForm] adds the token to the caller's [url.Values] map with
    [Add] (the caller sees the change, whatever the outcome), and sends
    that map, form-encoded, as the body. *)
Theorem PostForm_adds_token tyname url w w1 vs st :
  set_token w = (Ok tt, w1) ->
  fst (snd (snd (PostForm tyname url (w, (vs, st))))) !! "access_token" =
    Some (default [] (vs !! "access_token") ++ [token_of w1])%list /\
  n_log (w_net (fst (snd (PostForm tyname url (w, (vs, st)))))) =
    (n_log (w_net w1) ++ [mkRequest url "application/x-www-form-urlencoded"
                                    (Encode (Add "access_token" (token_of w1) vs))])%list.
Proof.
  intros Ht. destruct (PostForm_values tyname url w w1 vs st Ht) as [Hv Hl].
  rewrite Hv, lookup_Add_eq. split; [reflexivity | exact Hl].
Qed.

(** C10: calling [PostForm] twice with the same [url.Values] (line 74
    adds to the caller's map, which the caller keeps) leaves both tokens
    in the map, and the second call sends that map: the request it logs
    carries [Encode] of a map whose [access_token] holds the caller's
    values, then the first token, then the second. *)
Theorem PostForm_reuse_accumulates tyname url w w1 w2 vs st st2 :
  set_token w = (Ok tt, w1) ->
  set_token (fst (snd (PostForm tyname url (w, (vs, st))))) = (Ok tt, w2) ->
  fst (snd (snd (PostForm tyname url (fst (snd (PostForm tyname url (w, (vs, st)))), (fst (snd (snd (PostForm tyname url (w, (vs, st))))), st2))))) !! "access_token" =
    Some (default [] (vs !! "access_token") ++ [token_of w1; token_of w2])%list /\
  n_log (w_net (fst (snd (PostForm tyname url (fst (snd (PostForm tyname url (w, (vs, st)))), (fst (snd (snd (PostForm tyname url (w, (vs, st))))), st2)))))) =
    (n_log (w_net w2) ++ [form_request url (fst (snd (snd (PostForm tyname url (fst (snd (PostForm tyname url (w, (vs, st)))), (fst (snd (snd (PostForm tyname url (w, (vs, st))))), st2))))))])%list.
Proof.
  intros Ht1 Ht2.
  destruct (PostForm_values tyname url w w1 vs st Ht1) as [Hv1 _].
  rewrite Hv1 in *.
  destruct (PostForm_values tyname url _ w2 (Add "access_token" (token_of w1) vs) st2 Ht2) as [Hv2 Hl2].
  rewrite Hv2 in *. split; [|exact Hl2].
  rewrite !lookup_Add_eq. simpl. now rewrite <- app_assoc.
Qed.

(** C11: when the token cannot be obtained, [PostForm] returns that error
    (with a stack, line 71) before line 74 adds anything to the caller's
    [url.Values]: the map and the result are untouched and no request
    reaches the endpoint. *)
Theorem PostForm_token_error tyname url w w1 vs st e :
  set_token w = (Err e, w1) ->
  PostForm tyname url (w, (vs, st)) = (Err (EWithStack e), (w1, (vs, st))).
Proof. intros Ht. now rewrite PostForm_run, Ht. Qed.

(** C12: a response that does not carry [error_code] leaves the caller's
    [res.ErrorCode] as it was; a [Reply] reused after a failed call makes
    [PostJson] fail again on such a response, even a successful one. *)
Theorem PostJson_stale_error_code url v w w1 r data kvs :
  set_token w = (Ok tt, w1) ->
  answers w1 (json_request url (token_of w1) v) = Resp (BodyBytes data) ->
  Json.json_parse data = Some (JObj kvs) ->
  (forall k j, In (k, j) kvs -> fold_name k <> "ERROR_CODE") ->
  ErrorCode (base_reply (snd (snd (PostJson url v (w, r))))) = ErrorCode (base_reply r) /\
  (ErrorCode (base_reply r) <> 0%Z -> exists e, fst (PostJson url v (w, r)) = Err e).
Proof.
  intros Ht Ha Hp Hk.
  pose proof (unmarshal_reply_untouched "error_code" data kvs r Hp Hk) as Hu.
  rewrite PostJson_run, Ht, (send_answers _ _ _ Ha).
  destruct (unmarshal_reply data r) as [x r'] eqn:E. simpl in Hu.
  injection Hu as Hc. split.
  - destruct x as [[]|e]; [destruct (negb _)|]; exact Hc.
  - intros Hr. destruct x as [[]|e]; [|eauto].
    rewrite Hc. destruct (Z.eqb_spec (ErrorCode (base_reply r)) 0); [contradiction|eauto].
Qed.

(** C13: the endpoint-specific members of a response (e.g. [result]) are
    not stored anywhere: the embedded [Interface] is a field named
    [Interface] for [encoding/json], so [res.Interface] keeps what the
    caller put there unless the response has a member of that name. *)
Theorem PostJson_payload_dropped url v w w1 r data kvs :
  set_token w = (Ok tt, w1) ->
  answers w1 (json_request url (token_of w1) v) = Resp (BodyBytes data) ->
  Json.json_parse data = Some (JObj kvs) ->
  (forall k j, In (k, j) kvs -> fold_name k <> "INTERFACE") ->
  Interface (snd (snd (PostJson url v (w, r)))) = Interface r.
Proof.
  intros Ht Ha Hp Hk.
  pose proof (unmarshal_reply_untouched "Interface" data kvs r Hp Hk) as Hu.
  rewrite PostJson_run, Ht, (send_answers _ _ _ Ha).
  destruct (unmarshal_reply data r) as [x r'] eqn:E. simpl in Hu.
  injection Hu as Hi. destruct x as [[]|e]; [destruct (negb _)|]; exact Hi.
Qed.

(** C16: after the token step of a call succeeds, [b.Token.AccessToken]
    (the token [PostJson] appends and [PostForm] adds) is the token of the
    state the storage backend holds. *)
Theorem set_token_field_stored `{!StorageLaws St} w w1 :
  set_token w = (Ok tt, w1) ->
  exists s t, storage_get (store (Token (w_body w1))) = Some s /\ deserialize s = Some t /\
              ts_token t = token_of w1.
Proof.
  unfold set_token, token_of.
  destruct (SetAccessToken (w_now w) (Token (w_body w), w_net w)) as [x [tk n]] eqn:E.
  intros [= -> <-]. exact (SetAccessToken_field_stored _ _ _ _ _ E).
Qed.

(** C22 (error): once the token is held, a transport error or a read
    error of the API call is returned wrapped by [errors.WithStack], and
    [res] is left untouched. *)
Theorem PostJson_io_errors url v w w1 r :
  set_token w = (Ok tt, w1) ->
  (forall m, answers w1 (json_request url (token_of w1) v) = TransportErr m ->
     fst (PostJson url v (w, r)) = Err (EWithStack (ETransport m)) /\ snd (snd (PostJson url v (w, r))) = r) /\
  (forall m, answers w1 (json_request url (token_of w1) v) = Resp (ReadErr m) ->
     fst (PostJson url v (w, r)) = Err (EWithStack (ERead m)) /\ snd (snd (PostJson url v (w, r))) = r).
Proof.
  intros Ht. rewrite PostJson_run, Ht. unfold send, answers.
  split; intros m Ha; rewrite Ha; split; reflexivity.
Qed.

(** C20 (resource safety): [PostJson] and [PostForm] close every
    response body they open, on every path: the [defer resp.Body.Close()]
    of body.go lines 51 and 79 runs on the read-error, decode-error,
    API-error and success paths, and a transport error opens no body. *)
Theorem handlers_close_bodies url v tyname w r vs st :
  n_open (w_net (fst (snd (PostJson url v (w, r))))) = n_open (w_net w) /\
  n_open (w_net (fst (snd (PostForm tyname url (w, (vs, st)))))) = n_open (w_net w).
Proof.
  rewrite PostJson_run, PostForm_run. pose proof (set_token_open w) as Ho.
  destruct (set_token w) as [[[]|e] w1]; simpl in Ho; [|split; exact Ho]. cbv zeta.
  pose proof (send_open (json_request url (token_of w1) v) (w_net w1)) as H1.
  pose proof (send_open (form_request url (Add "access_token" (token_of w1) vs)) (w_net w1)) as H2.
  split.
  - destruct (send (json_request url (token_of w1) v) (w_net w1)) as [[[m|d]|e] n2]; simpl in H1;
      [| destruct (unmarshal_reply d r) as [[[]|e] r']; [destruct (negb _)|] |]; simpl; lia.
  - destruct (send (form_request url (Add "access_token" (token_of w1) vs)) (w_net w1))
      as [[[m|d]|e] n2]; simpl in H2;
      [| destruct (Unmarshal tyname d st) as [[[]|e] st'] |]; simpl; lia.
Qed.

(** C21 (composition of [PostForm] with the receiving side): the form
    body [PostForm] sends is read back by [url.ParseQuery] as exactly the
    map the caller holds after the call, its values plus the token, when
    the caller's map has no key with an empty list of values. *)
Theorem PostForm_form_decodes tyname url w w1 vs st :
  set_token w = (Ok tt, w1) ->
  (forall k xs, vs !! k = Some xs -> xs <> []) ->
  exists rq, n_log (w_net (fst (snd (PostForm tyname url (w, (vs, st)))))) = (n_log (w_net w1) ++ [rq])%list /\
             ParseQuery (rq_body rq) = (fst (snd (snd (PostForm tyname url (w, (vs, st))))), None).
Proof.
  intros Ht Hne. destruct (PostForm_values tyname url w w1 vs st Ht) as [Hv Hl].
  exists (form_request url (Add "access_token" (token_of w1) vs)). split; [exact Hl|].
  unfold form_request. cbn [rq_body]. rewrite Hv, ParseQuery_pairs, add_pairs_encode; [reflexivity|].
  apply Add_nonempty, Hne.
Qed.

(** C19: a response body [null] is decoded without error and writes
    nothing: [PostJson] leaves [res] as it was and, if the caller's
    [ErrorCode] is 0, reports success though the API sent neither an
    envelope nor a result. *)
Theorem PostJson_null_body url v w w1 r data :
  set_token w = (Ok tt, w1) ->
  answers w1 (json_request url (token_of w1) v) = Resp (BodyBytes data) ->
  Json.json_parse data = Some JNull ->
  snd (snd (PostJson url v (w, r))) = r /\
  (ErrorCode (base_reply r) = 0%Z -> fst (PostJson url v (w, r)) = Ok tt).
Proof.
  intros Ht Ha Hp.
  rewrite PostJson_run, Ht, (send_answers _ _ _ Ha).
  unfold unmarshal_reply, Unmarshal. rewrite Hp.
  destruct r as [[c l m] i]. simpl. split; [reflexivity|].
  intros ->. reflexivity.
Qed.

End WithStorage.

(** C14: an [error_code] that does not fit in an [int64] (or is not an
    integer literal), as the first member of the response, makes the
    decoding fail with an [*UnmarshalTypeError] naming the literal,
    whatever members follow it (the decoder keeps the first error), and
    leaves [res.ErrorCode] as the caller left it when no later member
    selects the field. *)
Theorem unmarshal_reply_overflow data k lit rest r :
  Json.json_parse data = Some (JObj ((k, JNum lit) :: rest)) ->
  fold_name k = "ERROR_CODE" ->
  GoFmt.ParseInt lit = None ->
  (forall k' j, In (k', j) rest -> fold_name k' <> "ERROR_CODE") ->
  fst (unmarshal_reply data r) = Err (EUnmarshalType ("number " ++ lit) "int64" "error_code") /\
  ErrorCode (base_reply (snd (unmarshal_reply data r))) = ErrorCode (base_reply r).
Proof.
  intros Hp Hk Hl Hrest.
  assert (HU : Unmarshal "body.Reply" data (reply_fields r) =
               (Err (EUnmarshalType ("number " ++ lit) "int64" "error_code"),
                fst (decode_members rest (reply_fields r)
                       (Some (EUnmarshalType ("number " ++ lit) "int64" "error_code"))))).
  { unfold Unmarshal. rewrite Hp. cbn [decode_struct decode_members].
    rewrite (find_error_code k r Hk). cbn. rewrite Hl. cbn.
    pose proof (decode_members_saved rest (reply_fields r)
                  (EUnmarshalType ("number " ++ lit) "int64" "error_code")) as Hs.
    destruct (decode_members _ _ _) as [st' e']. cbn in Hs. now subst. }
  pose proof (unmarshal_reply_get "error_code" data r) as Hg. rewrite HU in Hg. cbn [snd] in Hg.
  rewrite decode_members_untouched in Hg.
  - split; [unfold unmarshal_reply; rewrite HU; reflexivity|].
    cbn in Hg. injection Hg as Hg. exact Hg.
  - intros k' j Hin Hf. apply find_field_fold in Hf. exact (Hrest k' j Hin Hf).
Qed.

(** C15: member names match case-insensitively: a member spelled
    [error_code] up to ASCII case sets [ErrorCode]. *)
Theorem unmarshal_reply_case_insensitive data k lit z r :
  Json.json_parse data = Some (JObj [(k, JNum lit)]) ->
  fold_name k = "ERROR_CODE" ->
  GoFmt.ParseInt lit = Some z ->
  unmarshal_reply data r =
  (Ok tt, mkReply (mkBaseReply z (LogId (base_reply r)) (ErrorMsg (base_reply r))) (Interface r)).
Proof.
  intros Hp Hk Hl. unfold unmarshal_reply, Unmarshal. rewrite Hp. simpl.
  rewrite (find_error_code k r Hk). simpl. rewrite Hl. reflexivity.
Qed.

Arguments Body St : clear implicits.
Arguments world St : clear implicits.

End Body.

(** * Concrete runs: each theorem applied where its hypotheses hold *)

Module BodyExamples.
Import Json Decode Values Http Token Body.

Definition api_url : string := "https://aip.baidubce.com/rest/2.0/ocr/v1/general".

(** JSON text written with single quotes standing for double quotes. *)
Fixpoint dq (s : string) : string :=
  match s with
  | EmptyString => EmptyString
  | String c r => String (if Ascii.eqb c "'" then "034"%char else c) (dq r)
  end.

Definition grant : response :=
  Resp (BodyBytes (dq "{'access_token':'24.new','expires_in':2592000}")).

(** An endpoint that grants a token and answers [body] to everything else. *)
Definition server (body : string) : list request -> request -> response :=
  fun _ rq => if String.prefix "https://aip.baidubce.com/oauth" (rq_url rq) then grant
              else Resp (BodyBytes body).

Definition w0 (body : string) : world (option string) :=
  mkWorld (New "k" "s" None) 100 (mkNet (server body) [] 0).

Definition w_down : world (option string) :=
  mkWorld (New "k" "s" None) 100 (mkNet (fun _ _ => TransportErr "dial tcp: i/o timeout") [] 0).

Definition r0 : Reply := mkReply (mkBaseReply 0 0 "") None.
Definition r_failed : Reply := mkReply (mkBaseReply 17 0 "quota exceeded") None.

Definition body17 : string := dq "{'error_code':17,'error_msg':'quota exceeded'}".
Definition body_ok : string := dq "{'log_id':1,'result':'ok'}".
Definition body_overflow : string := dq "{'error_code':9223372036854775808,'log_id':3}".
Definition body_upper : string := dq "{'Error_Code':5}".
Definition body_ok_kvs : list (string * json) := [("log_id", JNum "1"); ("result", JStr "ok")].

Definition w1 (body : string) : world (option string) := snd (set_token (w0 body)).

(** Discharge the hypotheses of a theorem at a concrete input. *)
Ltac run_hyp :=
  vm_compute;
  first [ reflexivity
        | intros Hf; discriminate Hf
        | let k := fresh "k" in let j := fresh "j" in let Hin := fresh "Hin" in
          intros k j Hin;
          repeat (destruct Hin as [Hin|Hin]; [injection Hin as <- <-; vm_compute; intros Hf; discriminate Hf|]);
          contradiction ].

Lemma PostJson_api_error_witness :
  exists m, fst (PostJson api_url "{}" (w0 body17, r0)) = Err (ENew m) /\
            GoFmt.parse_api_error m =
            Some (ErrorCode (base_reply (snd (unmarshal_reply body17 r0))),
                  ErrorMsg (base_reply (snd (unmarshal_reply body17 r0)))).
Proof.
  apply (PostJson_api_error api_url "{}" (w0 body17) (w1 body17) r0
           (snd (unmarshal_reply body17 r0)) body17); run_hyp.
Defined.

Lemma PostJson_token_error_witness :
  PostJson api_url "{}" (w_down, r0) =
  (Err (EWithStack (EToken (ETransport "dial tcp: i/o timeout"))), (snd (set_token w_down), r0)).
Proof.
  apply (PostJson_token_error api_url "{}" w_down (snd (set_token w_down)) r0); run_hyp.
Defined.

Lemma PostJson_malformed_witness :
  fst (PostJson api_url "{}" (w0 "<html>502</html>", r0)) = Err (EWithStack ESyntax) /\
  snd (snd (PostJson api_url "{}" (w0 "<html>502</html>", r0))) = r0.
Proof.
  apply (PostJson_malformed api_url "{}" (w0 "<html>502</html>") (w1 "<html>502</html>") r0
           "<html>502</html>"); run_hyp.
Defined.

Lemma PostJson_request_witness :
  n_log (w_net (fst (snd (PostJson api_url "{}" (w0 body17, r0))))) =
  (n_log (w_net (w1 body17)) ++
   [mkRequest (api_url ++ "?access_token=" ++ token_of (w1 body17)) "application/json" "{}"])%list.
Proof. apply (PostJson_request api_url "{}" (w0 body17) (w1 body17) r0); run_hyp. Defined.

Definition form_st : gstruct := [("error_code", GInt64 0)].
Definition form_vs : values := Add "image" "aGVsbG8=" ∅.

Lemma PostForm_token_error_witness :
  PostForm "T" api_url (w_down, (form_vs, form_st)) =
  (Err (EWithStack (EToken (ETransport "dial tcp: i/o timeout"))),
   (snd (set_token w_down), (form_vs, form_st))).
Proof.
  apply (PostForm_token_error "T" api_url w_down (snd (set_token w_down)) form_vs form_st); run_hyp.
Defined.

Lemma PostForm_ignores_error_code_witness :
  PostForm "T" api_url (w0 body17, (form_vs, form_st)) =
  (Ok tt, (set_net (w1 body17)
             (mkNet (n_server (w_net (w1 body17)))
                (n_log (w_net (w1 body17)) ++
                 [form_request api_url (Add "access_token" (token_of (w1 body17)) form_vs)])
                (n_open (w_net (w1 body17)))),
           (Add "access_token" (token_of (w1 body17)) form_vs,
            snd (Unmarshal "T" body17 form_st)))).
Proof.
  apply (PostForm_ignores_error_code "T" api_url (w0 body17) (w1 body17) form_vs form_st
           (snd (Unmarshal "T" body17 form_st)) body17); run_hyp.
Defined.

Lemma PostForm_adds_token_witness :
  fst (snd (snd (PostForm "T" api_url (w0 body17, (form_vs, form_st))))) !! "access_token" =
    Some (default [] (form_vs !! "access_token") ++ [token_of (w1 body17)])%list /\
  n_log (w_net (fst (snd (PostForm "T" api_url (w0 body17, (form_vs, form_st)))))) =
    (n_log (w_net (w1 body17)) ++ [mkRequest api_url "application/x-www-form-urlencoded"
                                    (Encode (Add "access_token" (token_of (w1 body17)) form_vs))])%list.
Proof. apply (PostForm_adds_token "T" api_url (w0 body17) (w1 body17) form_vs form_st); run_hyp. Defined.

Definition after_first : world (option string) :=
  fst (snd (PostForm "T" api_url (w0 body17, (form_vs, form_st)))).

Lemma PostForm_reuse_accumulates_witness :
  fst (snd (snd (PostForm "T" api_url (fst (snd (PostForm "T" api_url (w0 body17, (form_vs, form_st)))), (fst (snd (snd (PostForm "T" api_url (w0 body17, (form_vs, form_st))))), form_st))))) !! "access_token" =
    Some (default [] (form_vs !! "access_token") ++
          [token_of (w1 body17); token_of (snd (set_token after_first))])%list /\
  n_log (w_net (fst (snd (PostForm "T" api_url (fst (snd (PostForm "T" api_url (w0 body17, (form_vs, form_st)))), (fst (snd (snd (PostForm "T" api_url (w0 body17, (form_vs, form_st))))), form_st)))))) =
    (n_log (w_net (snd (set_token after_first))) ++
     [form_request api_url (fst (snd (snd (PostForm "T" api_url (fst (snd (PostForm "T" api_url (w0 body17, (form_vs, form_st)))), (fst (snd (snd (PostForm "T" api_url (w0 body17, (form_vs, form_st))))), form_st))))))])%list.
Proof.
  apply (PostForm_reuse_accumulates "T" api_url (w0 body17) (w1 body17)
           (snd (set_token after_first)) form_vs form_st form_st); run_hyp.
Defined.

Lemma PostJson_stale_error_code_witness :
  ErrorCode (base_reply (snd (snd (PostJson api_url "{}" (w0 body_ok, r_failed))))) =
    ErrorCode (base_reply r_failed) /\
  (ErrorCode (base_reply r_failed) <> 0%Z ->
   exists e, fst (PostJson api_url "{}" (w0 body_ok, r_failed)) = Err e).
Proof.
  apply (PostJson_stale_error_code api_url "{}" (w0 body_ok) (w1 body_ok) r_failed body_ok
           body_ok_kvs); run_hyp.
Defined.

Lemma PostJson_payload_dropped_witness :
  Interface (snd (snd (PostJson api_url "{}" (w0 body_ok, r0)))) = Interface r0.
Proof.
  apply (PostJson_payload_dropped api_url "{}" (w0 body_ok) (w1 body_ok) r0 body_ok body_ok_kvs);
    run_hyp.
Defined.

Lemma unmarshal_reply_overflow_witness :
  fst (unmarshal_reply body_overflow r_failed) =
    Err (EUnmarshalType ("number " ++ "9223372036854775808") "int64" "error_code") /\
  ErrorCode (base_reply (snd (unmarshal_reply body_overflow r_failed))) = ErrorCode (base_reply r_failed).
Proof.
  apply (unmarshal_reply_overflow body_overflow "error_code" "9223372036854775808"
           [("log_id", JNum "3")] r_failed); [run_hyp | run_hyp | run_hyp |].
  intros k' j [[= <- <-]|[]]. vm_compute. discriminate.
Defined.

Lemma unmarshal_reply_case_insensitive_witness :
  unmarshal_reply body_upper r0 =
  (Ok tt, mkReply (mkBaseReply 5 (LogId (base_reply r0)) (ErrorMsg (base_reply r0))) (Interface r0)).
Proof.
  apply (unmarshal_reply_case_insensitive body_upper "Error_Code" "5" 5 r0); run_hyp.
Defined.

Lemma set_token_field_stored_witness :
  exists s t, storage_get (store (Token (w_body (w1 body17)))) = Some s /\ deserialize s = Some t /\
              ts_token t = token_of (w1 body17).
Proof. apply (set_token_field_stored (w0 body17) (w1 body17)); run_hyp. Defined.

Lemma PostJson_null_body_witness :
  snd (snd (PostJson api_url "{}" (w0 "null", r0))) = r0 /\
  (ErrorCode (base_reply r0) = 0%Z -> fst (PostJson api_url "{}" (w0 "null", r0)) = Ok tt).
Proof. apply (PostJson_null_body api_url "{}" (w0 "null") (w1 "null") r0 "null"); run_hyp. Defined.

Lemma PostForm_form_decodes_witness :
  exists rq, n_log (w_net (fst (snd (PostForm "T" api_url (w0 body17, (form_vs, form_st)))))) =
               (n_log (w_net (w1 body17)) ++ [rq])%list /\
             ParseQuery (rq_body rq) = (fst (snd (snd (PostForm "T" api_url (w0 body17, (form_vs, form_st))))), None).
Proof.
  apply (PostForm_form_decodes "T" api_url (w0 body17) (w1 body17) form_vs form_st); [run_hyp|].
  intros k xs Hk. unfold form_vs in Hk. destruct (decide (k = "image")) as [->|Hne].
  - rewrite lookup_Add_eq in Hk. injection Hk as <-. discriminate.
  - rewrite lookup_Add_ne, lookup_empty in Hk by congruence. discriminate.
Defined.

(** An endpoint that grants a token and then fails as [api] says. *)
Definition server_api (api : response) : list request -> request -> response :=
  fun _ rq => if String.prefix "https://aip.baidubce.com/oauth" (rq_url rq) then grant else api.

Definition w_api (api : response) : world (option string) :=
  mkWorld (New "k" "s" None) 100 (mkNet (server_api api) [] 0).

Definition w1_api (api : response) : world (option string) := snd (set_token (w_api api)).

Lemma PostJson_io_errors_witness :
  fst (PostJson api_url "{}" (w_api (TransportErr "connection reset"), r0)) =
    Err (EWithStack (ETransport "connection reset")) /\
  snd (snd (PostJson api_url "{}" (w_api (TransportErr "connection reset"), r0))) = r0.
Proof.
  destruct (PostJson_io_errors api_url "{}" (w_api (TransportErr "connection reset"))
              (w1_api (TransportErr "connection reset")) r0) as [Ht _]; [run_hyp|].
  apply Ht. run_hyp.
Defined.

End BodyExamples.
