(* ===== verification/Race.v ===== *)
(** * Concurrent calls on one [Body]: the token steps

    A [*Body] is shared by every goroutine that calls [PostJson] on it, and
    [b.Token] is one [*lib.AccessToken]: the storage backend and the
    exported field [AccessToken] are shared memory, with no lock around
    the refresh (the specification's section 5).  A call's token step
    (body.go 44-47: [b.Token.SetAccessToken()], then the read of
    [b.Token.AccessToken] for the URL) is split into the atomic steps of
    [SetAccessToken]: read the store, ask the OAuth endpoint, write the
    store and the field; then the read of the field.  A configuration is
    the phase of every call and the shared world; [step] lets any one call
    take its next step.  Each call's phases are a small state machine,
    [thread_step].  The split of [SetAccessToken] into atomic steps
    follows the specification, as [lib] is not under src/.  The theorems
    bound the OAuth traffic of any interleaving and show that calls made
    one after the other share the token. *)

From stdpp Require Import base list relations.
From Stdlib Require Import String List ZArith Lia Bool.
From S2P Require Import Spec2Rocq Http Token Body.
Open Scope string_scope.

Module Race.
Import Http Token Body.

(** ** Runs of a step relation, shared with Calls.v *)

(** Run a schedule with an executable step function, passing over the
    entries whose step cannot be taken. *)
Fixpoint run_steps {A} (f : nat -> A -> option A) (sched : list nat) (x : A) : A :=
  match sched with
  | [] => x
  | i :: rest => match f i x with
                 | Some y => run_steps f rest y
                 | None => run_steps f rest x
                 end
  end.

Lemma run_steps_rtc {A} (R : relation A) (f : nat -> A -> option A) :
  (forall i x y, f i x = Some y -> R x y) -> forall sched x, rtc R x (run_steps f sched x).
Proof.
  intros Hf sched. induction sched as [|i rest IH]; intros x; simpl; [reflexivity|].
  destruct (f i x) as [y|] eqn:E; [|apply IH]. eapply rtc_l; [exact (Hf _ _ _ E) | apply IH].
Qed.

(** An invariant of one step holds in every state a run reaches. *)
Lemma rtc_invariant {A} (R : relation A) (P : A -> Prop) :
  (forall x y, R x y -> P x -> P y) -> forall x y, rtc R x y -> P x -> P y.
Proof. intros HP x y Hr. induction Hr as [|x1 x2 x3 H12 _ IH]; eauto. Qed.

Section WithStorage.
Context {St : Type} `{Storage St}.

(** Where a call is in lines 44-47 of [PostJson]. *)
Inductive phase : Type :=
| PStart                      (** before [SetAccessToken] reads the store *)
| PFetch                      (** no unexpired token stored: about to ask OAuth *)
| PSave (t : token_state)     (** the OAuth answer in hand, not yet stored *)
| PRead                       (** [SetAccessToken] returned [nil] *)
| PDone (tok : string)        (** read [b.Token.AccessToken] for the URL *)
| PFail (e : go_error).       (** returned [errors.WithStack(err)] (line 45) *)

(** One atomic step of one call on the shared world; [None] when the call
    has finished its token step. *)
Definition thread_step (p : phase) (w : world St) : option (phase * world St) :=
  let tk := Token (w_body w) in
  match p with
  | PStart =>
      match cached (w_now w) tk with
      | Some t => Some (PRead, mkWorld (mkBody (set_field tk (ts_token t))) (w_now w) (w_net w))
      | None => Some (PFetch, w)
      end
  | PFetch =>
      match fetch tk (w_net w) with
      | (Ok t, n') =>
          Some (PSave (mkTokenState (ts_token t) (wrap64 (w_now w + ts_expires_at t))), set_net w n')
      | (Err e, n') => Some (PFail (EWithStack e), set_net w n')
      end
  | PSave t => Some (PRead, mkWorld (mkBody (save tk t)) (w_now w) (w_net w))
  | PRead => Some (PDone (token_of w), w)
  | PDone _ | PFail _ => None
  end.

(** The calls in flight and the world they share. *)
Definition config : Type := list phase * world St.

(** The scheduler lets call [i] take its next step. *)
Inductive step : config -> config -> Prop :=
| step_thread ps w i p p' w' :
    ps !! i = Some p ->
    thread_step p w = Some (p', w') ->
    step (ps, w) (<[i := p']> ps, w').

(** The same, executable: a schedule is the list of calls to run. *)
Definition sched_step (i : nat) (c : config) : option config :=
  match fst c !! i with
  | Some p => match thread_step p (snd c) with
              | Some (p', w') => Some (<[i := p']> (fst c), w')
              | None => None
              end
  | None => None
  end.

Definition run_schedule (sched : list nat) (c : config) : config := run_steps sched_step sched c.

(** Calls past the point where they may ask the OAuth endpoint: each has
    asked it at most once. *)
Definition past_fetch (p : phase) : nat :=
  match p with PStart | PFetch => 0 | _ => 1 end.

Definition count_past (ps : list phase) : nat := sum_list (map past_fetch ps).

(** Start [k] calls at once on the world [w]. *)
Definition start (k : nat) (w : world St) : config := (replicate k PStart, w).

(** ** Lemmas on the pool *)

Lemma sum_list_insert (f : phase -> nat) ps i p p' :
  ps !! i = Some p ->
  sum_list (map f (<[i := p']> ps)) + f p = sum_list (map f ps) + f p'.
Proof.
  revert i. induction ps as [|q ps IH]; intros [|i]; simpl; try discriminate.
  - intros [= ->]. lia.
  - intros Hi. specialize (IH i Hi). lia.
Qed.

Lemma sched_step_sound i c c' : sched_step i c = Some c' -> step c c'.
Proof.
  destruct c as [ps w]. unfold sched_step. simpl.
  destruct (ps !! i) as [p|] eqn:Hi; [|discriminate].
  destruct (thread_step p w) as [[p' w']|] eqn:Ht; [|discriminate].
  intros [= <-]. eapply step_thread; eassumption.
Qed.

Lemma run_schedule_rtc sched c : rtc step c (run_schedule sched c).
Proof. exact (run_steps_rtc step sched_step sched_step_sound sched c). Qed.

Lemma count_past_length ps : count_past ps <= length ps.
Proof.
  unfold count_past. induction ps as [|p ps IH]; simpl; [lia|]. destruct p; simpl; lia.
Qed.

Lemma count_past_start k : count_past (replicate k PStart) = 0.
Proof. unfold count_past. induction k as [|k IH]; simpl; auto. Qed.

Lemma step_length c c' : step c c' -> length (fst c') = length (fst c).
Proof. intros [ps w i p p' w' _ _]. apply length_insert. Qed.

Lemma rtc_step_length c c' : rtc step c c' -> length (fst c') = length (fst c).
Proof.
  intros Hr. refine (rtc_invariant step (fun c2 => length (fst c2) = length (fst c)) _ _ _ Hr eq_refl).
  intros c1 c2 H12 Hl. rewrite (step_length _ _ H12). exact Hl.
Qed.

(** Only the OAuth request of the call's own key and secret goes out, and
    only from [PFetch]; the key and secret are never changed. *)
Lemma thread_step_net p w p' w' :
  thread_step p w = Some (p', w') ->
  appKey (Token (w_body w')) = appKey (Token (w_body w)) /\
  appSecret (Token (w_body w')) = appSecret (Token (w_body w)) /\
  exists d, n_log (w_net w') =
            (n_log (w_net w) ++ replicate d (oauth_request (appKey (Token (w_body w)))
                                                           (appSecret (Token (w_body w)))))%list /\
            past_fetch p + d <= past_fetch p'.
Proof.
  pose proof (fetch_log (Token (w_body w)) (w_net w)) as Hl.
  destruct p; simpl; try discriminate; repeat case_match; intros [= <- <-]; simpl in *;
    (split; [reflexivity | split; [reflexivity|]]);
    first [ exists 0; simpl; split; [symmetry; apply app_nil_r | lia]
          | exists 1; split; [exact Hl | lia] ].
Qed.

(** The invariant of the OAuth traffic of concurrent calls started on [w0]. *)
Definition oauth_inv (w0 : world St) (c : config) : Prop :=
  appKey (Token (w_body (snd c))) = appKey (Token (w_body w0)) /\
  appSecret (Token (w_body (snd c))) = appSecret (Token (w_body w0)) /\
  exists j, n_log (w_net (snd c)) =
            (n_log (w_net w0) ++ replicate j (oauth_request (appKey (Token (w_body w0)))
                                                            (appSecret (Token (w_body w0)))))%list /\
            j <= count_past (fst c).

Lemma oauth_inv_step w0 c c' : step c c' -> oauth_inv w0 c -> oauth_inv w0 c'.
Proof.
  intros [ps w i p p' w' Hi Ht] (Hk & Hs & j & Hl & Hj). simpl in *.
  destruct (thread_step_net _ _ _ _ Ht) as (Hk' & Hs' & d & Hl' & Hd).
  pose proof (sum_list_insert past_fetch ps i p p' Hi).
  unfold oauth_inv; simpl. split; [congruence|]. split; [congruence|]. exists (j + d). split.
  - rewrite Hl', Hl, Hk, Hs, replicate_add. now rewrite app_assoc.
  - unfold count_past in *. lia.
Qed.

Lemma oauth_inv_rtc w0 c c' : rtc step c c' -> oauth_inv w0 c -> oauth_inv w0 c'.
Proof. apply rtc_invariant, oauth_inv_step. Qed.

Lemma oauth_inv_start w0 k : oauth_inv w0 (start k w0).
Proof.
  split; [reflexivity|]. split; [reflexivity|]. exists 0. simpl.
  rewrite app_nil_r. split; [reflexivity|]. rewrite count_past_start. lia.
Qed.

(** ** Theorems *)

(** C17 (safety, by induction on the steps): however [k] concurrent calls
    on one [Body] interleave, the network sees nothing but the OAuth
    request of the body's key and secret, at most once per call. *)
Theorem concurrent_oauth_bound w0 k c :
  rtc step (start k w0) c ->
  exists j, n_log (w_net (snd c)) =
            (n_log (w_net w0) ++ replicate j (oauth_request (appKey (Token (w_body w0)))
                                                            (appSecret (Token (w_body w0)))))%list /\
            j <= k.
Proof.
  intros Hr. destruct (oauth_inv_rtc w0 _ _ Hr (oauth_inv_start w0 k)) as (_ & _ & j & Hl & Hj).
  exists j. split; [exact Hl|].
  pose proof (count_past_length (fst c)). rewrite (rtc_step_length _ _ Hr) in *.
  simpl in *. rewrite length_replicate in *. lia.
Qed.

(** The token step of a call with an unexpired token stored. *)
Lemma set_token_cached w t :
  cached (w_now w) (Token (w_body w)) = Some t ->
  set_token w = (Ok tt, mkWorld (mkBody (set_field (Token (w_body w)) (ts_token t))) (w_now w) (w_net w)).
Proof. intros Hc. unfold set_token. now rewrite (SetAccessToken_cached _ _ _ _ Hc). Qed.

(** The token step of a call that refreshes successfully. *)
Lemma set_token_refresh_ok w t n' :
  cached (w_now w) (Token (w_body w)) = None ->
  fetch (Token (w_body w)) (w_net w) = (Ok t, n') ->
  set_token w = (Ok tt, mkWorld (mkBody (save (Token (w_body w))
                   (mkTokenState (ts_token t) (wrap64 (w_now w + ts_expires_at t))))) (w_now w) n').
Proof. intros Hc Hf. unfold set_token. rewrite (SetAccessToken_refresh _ _ _ Hc), Hf. reflexivity. Qed.

(** C18 (sequential calls share the token): once a call's token step
    has succeeded, the next call's token step on the same [Body] changes
    nothing and sends nothing, provided the OAuth endpoint granted a
    positive lifetime whose expiry fits in an [int64]. *)
Theorem set_token_sequential `{!StorageLaws St} w w1 :
  set_token w = (Ok tt, w1) ->
  (forall t n', fetch (Token (w_body w)) (w_net w) = (Ok t, n') ->
     (0 < ts_expires_at t)%Z /\ in_int64 (w_now w + ts_expires_at t) = true) ->
  set_token w1 = (Ok tt, w1).
Proof.
  destruct (cached (w_now w) (Token (w_body w))) as [t|] eqn:Hc.
  - rewrite (set_token_cached _ _ Hc). intros [= <-] _.
    rewrite (set_token_cached _ t) by exact Hc. reflexivity.
  - destruct (fetch (Token (w_body w)) (w_net w)) as [[t|e] n'] eqn:Ef.
    + rewrite (set_token_refresh_ok _ _ _ Hc Ef). intros [= <-] Hf.
      destruct (Hf t n' eq_refl) as [Hpos Hr]. rewrite (wrap64_in_range _ Hr).
      rewrite (set_token_cached _ (mkTokenState (ts_token t) (w_now w + ts_expires_at t)))
        by (apply cached_save; simpl; [exact Hr | lia]).
      reflexivity.
    + unfold set_token. rewrite (SetAccessToken_refresh _ _ _ Hc), Ef. discriminate.
Qed.

End WithStorage.

End Race.

(** * Concrete interleavings *)

Module RaceExamples.
Import Http Token Body BodyExamples Race.

(** A fresh [Body] over an empty in-memory store and the server of
    [BodyExamples], which grants a token valid for 30 days. *)
Definition w_fresh : world (option string) := w0 body_ok.

(** The two calls alternate: both read the empty store before either
    writes it. *)
Definition interleaved : list nat := [0; 1; 0; 1; 0; 1; 0; 1].

Lemma concurrent_oauth_bound_witness :
  exists j, n_log (w_net (snd (run_schedule interleaved (start 2 w_fresh)))) =
            (n_log (w_net w_fresh) ++ replicate j (oauth_request (appKey (Token (w_body w_fresh)))
                                                                 (appSecret (Token (w_body w_fresh)))))%list /\
            j <= 2.
Proof. apply (concurrent_oauth_bound w_fresh 2). apply run_schedule_rtc. Defined.

Lemma set_token_sequential_witness : set_token (w1 body_ok) = (Ok tt, w1 body_ok).
Proof.
  apply (set_token_sequential (w0 body_ok) (w1 body_ok)); [vm_compute; reflexivity|].
  intros t n' Hf. vm_compute in Hf. injection Hf as <- <-. vm_compute. split; reflexivity.
Defined.

End RaceExamples.
