(* ===== verification/Calls.v ===== *)
(** * Whole [PostJson] calls running concurrently on one [Body]

    Race.v interleaves the token steps of concurrent calls; here each call
    runs the whole of [PostJson] (body.go 43-66): its token step
    ([Race.thread_step]), the [http.Post] of line 47, and the rest of the
    handler (lines 51-65: read the body, decode it into [*res], check the
    envelope, and the deferred [resp.Body.Close()]), which touches only the
    call's own response and result.  The callers' [*Reply] values live in
    a heap, a list indexed by address: two calls given the same [res]
    pointer write the same [Reply].  A configuration holds the calls, the
    heap and the shared world; [cstep] lets any call take its next step. *)

From Stdlib Require Import String List ZArith Lia Bool.
From stdpp Require Import base list relations.
From S2P Require Import Spec2Rocq GoFmt Http Token Body Race.
Open Scope string_scope.
Open Scope go_scope.

Module Calls.
Import Http Token Body Race.

Section WithStorage.
Context {St : Type} `{Storage St}.

(** Where a call of [PostJson] is. *)
Inductive cphase : Type :=
| CToken (p : phase)          (** in its token step, lines 44-47 *)
| CSent (resp : resp_body)    (** [http.Post] answered: the body is open, the [defer] registered *)
| CEnd (x : result unit).     (** returned [x] *)

(** One call: its arguments [url] and [v], the address its [res] points
    to, and where it is. *)
Record call : Type := mkCall {
  c_url : string;
  c_v : string;
  c_res : nat;
  c_phase : cphase
}.

(** The calls in flight, the heap of [Reply] values and the world. *)
Record cfg : Type := mkCfg {
  c_calls : list call;
  c_heap : list Reply;
  c_world : world St
}.

(** Lines 51-65 of [PostJson]: from the deferred [Close] to the return. *)
Definition post_tail (resp : resp_body) : ST (world St * Reply) unit :=
  defer (on_fst (net_call Close)) (
    body <- with_stack (ReadAll resp) ;;
    with_stack (on_snd (unmarshal_reply body)) ;;;
    r <- gets snd ;;
    if negb (ErrorCode (base_reply r) =? 0)%Z
    then throw (ENew (GoFmt.api_error_msg (ErrorCode (base_reply r)) (ErrorMsg (base_reply r))))
    else ret tt).

(** One atomic step of one call; [None] once it has returned, or when its
    [res] is not an address of the heap. *)
Definition call_step (c : call) (h : list Reply) (w : world St) :
    option (cphase * list Reply * world St) :=
  match c_phase c with
  | CToken (PDone tok) =>
      match with_stack (net_call (Post (json_url (c_url c) tok) "application/json" (c_v c))) w with
      | (Ok resp, w') => Some (CSent resp, h, w')
      | (Err e, w') => Some (CEnd (Err e), h, w')
      end
  | CToken (PFail e) => Some (CEnd (Err e), h, w)
  | CToken p =>
      match thread_step p w with
      | Some (p', w') => Some (CToken p', h, w')
      | None => None
      end
  | CSent resp =>
      match h !! c_res c with
      | Some r => let '(x, (w', r')) := post_tail resp (w, r) in
                  Some (CEnd x, <[c_res c := r']> h, w')
      | None => None
      end
  | CEnd _ => None
  end.

Definition set_phase (c : call) (p : cphase) : call := mkCall (c_url c) (c_v c) (c_res c) p.

(** The scheduler lets call [i] take its next step. *)
Inductive cstep : cfg -> cfg -> Prop :=
| cstep_call cs h w i c p' h' w' :
    cs !! i = Some c ->
    call_step c h w = Some (p', h', w') ->
    cstep (mkCfg cs h w) (mkCfg (<[i := set_phase c p']> cs) h' w').

(** The same, executable. *)
Definition csched_step (i : nat) (g : cfg) : option cfg :=
  match c_calls g !! i with
  | Some c => match call_step c (c_heap g) (c_world g) with
              | Some (p', h', w') => Some (mkCfg (<[i := set_phase c p']> (c_calls g)) h' w')
              | None => None
              end
  | None => None
  end.

Definition run_cschedule (sched : list nat) (g : cfg) : cfg := run_steps csched_step sched g.

Definition ended (c : call) : bool := match c_phase c with CEnd _ => true | _ => false end.

Definition all_ended (cs : list call) : bool := forallb ended cs.

(** The calls [go b.PostJson(url, v, res)] started together, one per job
    [(url, v, res)]. *)
Definition launch (jobs : list (string * string * nat)) : list call :=
  (fun j => mkCall (fst (fst j)) (snd (fst j)) (snd j) (CToken PStart)) <$> jobs.

Definition cstart (jobs : list (string * string * nat)) (h : list Reply) (w : world St) : cfg :=
  mkCfg (launch jobs) h w.

(** What the steps never change: each call's arguments. *)
Definition jobs_of (cs : list call) : list (string * string * nat) :=
  (fun c => (c_url c, c_v c, c_res c)) <$> cs.

(** The response body a call holds open. *)
Definition holds_body (c : call) : nat := match c_phase c with CSent _ => 1 | _ => 0 end.

(** Requests a call may have sent so far: the OAuth one once it is past
    [PFetch], the API one once it is past [PDone]. *)
Definition sent_bound (c : call) : nat :=
  match c_phase c with CToken p => past_fetch p | _ => 2 end.

Definition sum_calls (f : call -> nat) (cs : list call) : nat := sum_list (map f cs).

(** The requests concurrent calls started on [w0] with [jobs] may send:
    the OAuth request of the body's key and secret, or the API request of
    one of the jobs, with whatever token its call read. *)
Definition req_of (w0 : world St) (jobs : list (string * string * nat)) (rq : request) : Prop :=
  rq = oauth_request (appKey (Token (w_body w0))) (appSecret (Token (w_body w0))) \/
  exists u v i tok, (u, v, i) ∈ jobs /\ rq = json_request u tok v.

(** ** Lines 51-65 of a call *)

(** Unfold [post_tail] on a given response and split its branches. *)
Ltac post_tail_cases resp :=
  unfold post_tail, defer, bind, with_stack, on_fst, on_snd, gets, throw, ret, net_call, Close, ReadAll;
  destruct resp; cbn; repeat case_match; simplify_eq/=.

(** [post_tail] reads nothing of the world and writes only the network's
    count of open bodies. *)
Lemma post_tail_net resp (w : world St) r :
  w_body (fst (snd (post_tail resp (w, r)))) = w_body w /\
  n_log (w_net (fst (snd (post_tail resp (w, r))))) = n_log (w_net w).
Proof. post_tail_cases resp; split; reflexivity. Qed.

(** [post_tail] closes the body it was given: the deferred [Close] runs
    on every path. *)
Lemma post_tail_open resp (w : world St) r :
  n_open (w_net (fst (snd (post_tail resp (w, r))))) = pred (n_open (w_net w)).
Proof. post_tail_cases resp; reflexivity. Qed.

(** A call that returns [nil] from [post_tail] leaves a zero [ErrorCode]
    in its [Reply]. *)
Lemma post_tail_ok resp (w : world St) r :
  fst (post_tail resp (w, r)) = Ok tt -> ErrorCode (base_reply (snd (snd (post_tail resp (w, r))))) = 0%Z.
Proof.
  post_tail_cases resp; try discriminate; intros _.
  match goal with Hb : negb _ = false |- _ => apply negb_false_iff, Z.eqb_eq in Hb; exact Hb end.
Qed.

(** [post_tail] is the rest of [PostJson] after its [http.Post]: the
    handler is its token step, its post and [post_tail]. *)
Lemma PostJson_split url v (w : world St) r :
  PostJson url v (w, r) =
  match set_token w with
  | (Err e, w1) => (Err (EWithStack e), (w1, r))
  | (Ok _, w1) =>
      match with_stack (net_call (Post (json_url url (token_of w1)) "application/json" v)) w1 with
      | (Err e, w2) => (Err e, (w2, r))
      | (Ok resp, w2) => post_tail resp (w2, r)
      end
  end.
Proof.
  unfold PostJson, post_tail, bind, with_stack, on_fst, gets.
  destruct (set_token w) as [[[]|e] w1]; [|reflexivity]. simpl.
  destruct (net_call _ w1) as [[resp|e] w2]; reflexivity.
Qed.

(** ** What one step does *)

Lemma sum_calls_insert (f : call -> nat) cs i c c' :
  cs !! i = Some c -> sum_calls f (<[i := c']> cs) + f c = sum_calls f cs + f c'.
Proof.
  unfold sum_calls. revert i. induction cs as [|d cs IH]; intros [|i]; simpl; try discriminate.
  - intros [= ->]. lia.
  - intros Hi. specialize (IH i Hi). lia.
Qed.

Lemma jobs_of_insert cs i c p :
  cs !! i = Some c -> jobs_of (<[i := set_phase c p]> cs) = jobs_of cs.
Proof.
  intros Hi. unfold jobs_of. rewrite list_fmap_insert. apply list_insert_id.
  rewrite list_lookup_fmap, Hi. reflexivity.
Qed.

Lemma jobs_of_launch jobs : jobs_of (launch jobs) = jobs.
Proof. induction jobs as [|[[u v] i] jobs IH]; simpl; [reflexivity | now rewrite IH]. Qed.

Lemma jobs_of_lookup cs i c : cs !! i = Some c -> (c_url c, c_v c, c_res c) ∈ jobs_of cs.
Proof. intros Hi. eapply list_elem_of_lookup_2. unfold jobs_of. rewrite list_lookup_fmap, Hi. reflexivity. Qed.

Lemma thread_step_open p (w : world St) p' w' :
  thread_step p w = Some (p', w') -> n_open (w_net w') = n_open (w_net w).
Proof.
  pose proof (fetch_open (Token (w_body w)) (w_net w)) as Ho.
  destruct p; simpl; try discriminate; repeat case_match; intros [= <- <-]; simpl; try reflexivity; exact Ho.
Qed.

(** The post of line 47, as a step on the world. *)
Lemma post_step u ct b (w : world St) :
  with_stack (net_call (Post u ct b)) w =
  match send (mkRequest u ct b) (w_net w) with
  | (Ok resp, n') => (Ok resp, set_net w n')
  | (Err e, n') => (Err (EWithStack e), set_net w n')
  end.
Proof. unfold with_stack, net_call, Post. destruct (send _ _) as [[|] ?]; reflexivity. Qed.

(** The four kinds of step a call takes. *)
Lemma call_step_cases c h (w : world St) p' h' w' :
  call_step c h w = Some (p', h', w') ->
  (exists p p0, c_phase c = CToken p /\ thread_step p w = Some (p0, w') /\ p' = CToken p0 /\ h' = h) \/
  (exists tok, c_phase c = CToken (PDone tok) /\ h' = h /\
     w' = set_net w (snd (send (json_request (c_url c) tok (c_v c)) (w_net w))) /\
     p' = match fst (send (json_request (c_url c) tok (c_v c)) (w_net w)) with
          | Ok resp => CSent resp
          | Err e => CEnd (Err (EWithStack e))
          end) \/
  (exists e, c_phase c = CToken (PFail e) /\ p' = CEnd (Err e) /\ h' = h /\ w' = w) \/
  (exists resp r, c_phase c = CSent resp /\ h !! c_res c = Some r /\
     w' = fst (snd (post_tail resp (w, r))) /\ p' = CEnd (fst (post_tail resp (w, r)))).
Proof.
  destruct c as [u v i [p|resp|x]]; unfold call_step; cbn [c_phase c_url c_v c_res].
  - destruct p; try (destruct (thread_step _ w) as [[p0 w0]|] eqn:Ht; [|discriminate];
                     intros [= <- <- <-]; left; eauto 6).
    + rewrite post_step. fold (json_request (json_url u tok) "application/json" v).
      intros Hs. right; left. exists tok. destruct (send _ (w_net w)) as [[resp|e] n'];
        injection Hs as <- <- <-; auto.
    + intros [= <- <- <-]. right; right; left. eauto.
  - destruct (h !! i) as [r|] eqn:Hi; [|discriminate].
    destruct (post_tail resp (w, r)) as [x [w2 r2]] eqn:Ep.
    intros [= <- <- <-]. do 3 right. exists resp, r. rewrite Ep. auto.
  - discriminate.
Qed.

(** A step opens the body of an answered post and closes it in
    [post_tail]; nothing else changes the count. *)
Lemma call_step_open c h (w : world St) p' h' w' :
  call_step c h w = Some (p', h', w') -> holds_body c <= n_open (w_net w) ->
  n_open (w_net w') + holds_body c = n_open (w_net w) + holds_body (set_phase c p').
Proof.
  intros Hs Hb. destruct (call_step_cases _ _ _ _ _ _ Hs)
    as [(p & p0 & Hp & Ht & -> & ->) | [(tok & Hp & -> & -> & ->) | [(e & Hp & -> & -> & ->) |
        (resp & r & Hp & Hr & -> & ->)]]];
    unfold holds_body in *; cbn [set_phase c_phase] in *; rewrite Hp in *.
  - rewrite (thread_step_open _ _ _ _ Ht). lia.
  - pose proof (send_open (json_request (c_url c) tok (c_v c)) (w_net w)) as Ho.
    destruct (fst (send _ _)); cbn [set_net w_net]; lia.
  - lia.
  - rewrite post_tail_open. lia.
Qed.

(** A step sends at most the requests its bound allows: the OAuth
    request of the key and secret of the world, or the call's API
    request; the key and secret never change. *)
Lemma call_step_log c h (w : world St) p' h' w' :
  call_step c h w = Some (p', h', w') ->
  appKey (Token (w_body w')) = appKey (Token (w_body w)) /\
  appSecret (Token (w_body w')) = appSecret (Token (w_body w)) /\
  exists d, n_log (w_net w') = (n_log (w_net w) ++ d)%list /\
            length d + sent_bound c <= sent_bound (set_phase c p') /\
            Forall (fun rq => rq = oauth_request (appKey (Token (w_body w))) (appSecret (Token (w_body w))) \/
                              exists tok, rq = json_request (c_url c) tok (c_v c)) d.
Proof.
  intros Hs. destruct (call_step_cases _ _ _ _ _ _ Hs)
    as [(p & p0 & Hp & Ht & -> & ->) | [(tok & Hp & -> & -> & ->) | [(e & Hp & -> & -> & ->) |
        (resp & r & Hp & Hr & -> & ->)]]];
    unfold sent_bound; cbn [set_phase c_phase]; rewrite Hp; cbn [set_net w_body w_net close_net n_log].
  - destruct (thread_step_net _ _ _ _ Ht) as (Hk & Hs' & d & Hl & Hd).
    split; [exact Hk|]. split; [exact Hs'|]. exists (replicate d (oauth_request (appKey (Token (w_body w)))
                                                                (appSecret (Token (w_body w))))).
    rewrite length_replicate. split; [exact Hl|]. split; [lia|]. apply Forall_replicate. now left.
  - split; [reflexivity|]. split; [reflexivity|].
    exists [json_request (c_url c) tok (c_v c)]. rewrite send_log. split; [reflexivity|].
    split; [destruct (fst (send _ _)); cbn; lia|]. constructor; [right; eauto | constructor].
  - split; [reflexivity|]. split; [reflexivity|]. exists []. rewrite app_nil_r. cbn. repeat constructor.
  - destruct (post_tail_net resp w r) as [-> ->].
    split; [reflexivity|]. split; [reflexivity|]. exists []. rewrite app_nil_r. repeat constructor.
Qed.

(** A step writes the heap only where the call's [res] points, and a call
    returns [nil] only by writing a zero [ErrorCode] there. *)
Lemma call_step_heap c h (w : world St) p' h' w' :
  call_step c h w = Some (p', h', w') ->
  (h' = h /\ p' <> CEnd (Ok tt)) \/
  (exists r', c_res c < length h /\ h' = <[c_res c := r']> h /\
              (p' = CEnd (Ok tt) -> ErrorCode (base_reply r') = 0%Z)).
Proof.
  intros Hs. destruct (call_step_cases _ _ _ _ _ _ Hs)
    as [(p & p0 & Hp & Ht & -> & ->) | [(tok & Hp & -> & -> & ->) | [(e & Hp & -> & -> & ->) |
        (resp & r & Hp & Hr & -> & ->)]]].
  - left. split; [reflexivity | discriminate].
  - left. split; [reflexivity|]. destruct (fst (send _ _)); discriminate.
  - left. split; [reflexivity | discriminate].
  - unfold call_step in Hs. rewrite Hp, Hr in Hs.
    pose proof (post_tail_ok resp w r) as Hok.
    destruct (post_tail resp (w, r)) as [x [w2 r2]]. cbn in Hs, Hok |- *. injection Hs as <-.
    right. exists r2. split; [eapply lookup_lt_Some; exact Hr|]. split; [reflexivity|].
    intros [= Hx]. exact (Hok Hx).
Qed.

(** A step never changes the size of the heap. *)
Lemma call_step_length c h (w : world St) p' h' w' :
  call_step c h w = Some (p', h', w') -> length h' = length h.
Proof.
  destruct c as [u v i [p|resp|x]]; unfold call_step; cbn [c_phase c_res];
    repeat case_match; intros [= _ <- _]; rewrite ?length_insert; reflexivity.
Qed.

(** ** Invariants of the configurations *)

Lemma csched_step_sound i g g' : csched_step i g = Some g' -> cstep g g'.
Proof.
  destruct g as [cs h w]. unfold csched_step. cbn [c_calls c_heap c_world].
  destruct (cs !! i) as [c|] eqn:Hi; [|discriminate].
  destruct (call_step c h w) as [[[p' h'] w']|] eqn:Hs; [|discriminate].
  intros [= <-]. econstructor; eassumption.
Qed.

Lemma run_cschedule_rtc sched g : rtc cstep g (run_cschedule sched g).
Proof. exact (run_steps_rtc cstep csched_step csched_step_sound sched g). Qed.

Lemma sum_calls_lookup (f : call -> nat) cs i c : cs !! i = Some c -> f c <= sum_calls f cs.
Proof.
  unfold sum_calls. revert i. induction cs as [|d cs IH]; intros [|i]; simpl; try discriminate.
  - intros [= ->]. lia.
  - intros Hi. specialize (IH i Hi). lia.
Qed.

Lemma sum_calls_bound (f : call -> nat) m cs : (forall c, f c <= m) -> sum_calls f cs <= m * length cs.
Proof. intros Hf. unfold sum_calls. induction cs as [|c cs IH]; simpl; [lia|]. specialize (Hf c). lia. Qed.

Lemma sum_calls_launch (f : call -> nat) jobs :
  (forall u v i, f (mkCall u v i (CToken PStart)) = 0) -> sum_calls f (launch jobs) = 0.
Proof. intros Hf. unfold sum_calls. induction jobs as [|j jobs IH]; simpl; [reflexivity|]. now rewrite Hf, IH. Qed.

Lemma sum_calls_ended (f : call -> nat) cs :
  (forall c, ended c = true -> f c = 0) -> all_ended cs = true -> sum_calls f cs = 0.
Proof.
  intros Hf. unfold sum_calls, all_ended. induction cs as [|c cs IH]; simpl; [reflexivity|].
  intros [Hc Hcs]%andb_true_iff. rewrite (Hf c Hc), (IH Hcs). reflexivity.
Qed.

(** The arguments of the calls and the size of the heap never change. *)
Lemma cstep_static g g' :
  cstep g g' -> jobs_of (c_calls g') = jobs_of (c_calls g) /\ length (c_heap g') = length (c_heap g).
Proof.
  intros [cs h w i c p' h' w' Hi Hs]. cbn [c_calls c_heap]. split; [exact (jobs_of_insert _ _ _ _ Hi)|].
  exact (call_step_length _ _ _ _ _ _ Hs).
Qed.

(** Open bodies: those of the calls between their post and their return. *)
Definition open_inv (n0 : nat) (g : cfg) : Prop :=
  n_open (w_net (c_world g)) = n0 + sum_calls holds_body (c_calls g).

Lemma open_inv_step n0 g g' : cstep g g' -> open_inv n0 g -> open_inv n0 g'.
Proof.
  intros [cs h w i c p' h' w' Hi Hs]. unfold open_inv. cbn [c_world c_calls]. intros Ho.
  pose proof (sum_calls_insert holds_body _ _ _ (set_phase c p') Hi).
  pose proof (sum_calls_lookup holds_body _ _ _ Hi).
  pose proof (call_step_open _ _ _ _ _ _ Hs ltac:(lia)). lia.
Qed.

Lemma open_inv_reach jobs h (w0 : world St) g :
  rtc cstep (cstart jobs h w0) g ->
  n_open (w_net (c_world g)) = n_open (w_net w0) + sum_calls holds_body (c_calls g).
Proof.
  intros Hr. refine (rtc_invariant cstep _ (open_inv_step _) _ _ Hr _). unfold open_inv.
  cbn [cstart c_world c_calls]. rewrite sum_calls_launch by reflexivity. lia.
Qed.

Lemma holds_body_ended cs : all_ended cs = true -> sum_calls holds_body cs = 0.
Proof. apply sum_calls_ended. intros [u v i [p|resp|x]]; cbn; congruence. Qed.

(** The requests sent: each call's OAuth and API requests, two at most. *)
Definition log_inv (w0 : world St) (jobs : list (string * string * nat)) (g : cfg) : Prop :=
  jobs_of (c_calls g) = jobs /\
  appKey (Token (w_body (c_world g))) = appKey (Token (w_body w0)) /\
  appSecret (Token (w_body (c_world g))) = appSecret (Token (w_body w0)) /\
  exists l, n_log (w_net (c_world g)) = (n_log (w_net w0) ++ l)%list /\
            Forall (req_of w0 jobs) l /\ length l <= sum_calls sent_bound (c_calls g).

Lemma log_inv_step w0 jobs g g' : cstep g g' -> log_inv w0 jobs g -> log_inv w0 jobs g'.
Proof.
  intros Hst. destruct (cstep_static _ _ Hst) as [Hj _].
  destruct Hst as [cs h w i c p' h' w' Hi Hs]. unfold log_inv. cbn [c_world c_calls] in *.
  intros (Hjobs & Hk & Hsec & l & Hl & Hf & Hlen).
  destruct (call_step_log _ _ _ _ _ _ Hs) as (Hk' & Hs' & d & Hd & Hdl & Hdf).
  pose proof (sum_calls_insert sent_bound _ _ _ (set_phase c p') Hi).
  split; [congruence|]. split; [congruence|]. split; [congruence|].
  exists (l ++ d)%list. split; [rewrite Hd, Hl; symmetry; apply app_assoc|]. split.
  - apply Forall_app. split; [exact Hf|]. eapply Forall_impl; [exact Hdf|].
    intros rq [-> | [tok ->]]; [left; congruence|].
    right. exists (c_url c), (c_v c), (c_res c), tok. split; [|reflexivity].
    rewrite <- Hjobs. exact (jobs_of_lookup _ _ _ Hi).
  - rewrite length_app. lia.
Qed.

(** The results callers read: a call that returned [nil] left a zero
    [ErrorCode] where its [res] points. *)
Definition res_inv (jobs : list (string * string * nat)) (g : cfg) : Prop :=
  jobs_of (c_calls g) = jobs /\
  forall i c, c_calls g !! i = Some c -> c_phase c = CEnd (Ok tt) ->
    exists r, c_heap g !! c_res c = Some r /\ ErrorCode (base_reply r) = 0%Z.

Section Aliasing.
(** The calls were given pairwise distinct [res] pointers. *)
Variable jobs : list (string * string * nat).
Hypothesis distinct_res : NoDup (snd <$> jobs).

Lemma res_distinct cs i j ci cj :
  jobs_of cs = jobs -> cs !! i = Some ci -> cs !! j = Some cj -> c_res ci = c_res cj -> i = j.
Proof.
  intros Hjobs Hi Hj Hr. apply (NoDup_lookup (snd <$> jobs) i j (c_res ci) distinct_res);
    rewrite <- Hjobs; unfold jobs_of; rewrite !list_lookup_fmap; [rewrite Hi | rewrite Hj, Hr]; reflexivity.
Qed.

Lemma res_inv_step g g' : cstep g g' -> res_inv jobs g -> res_inv jobs g'.
Proof.
  intros Hst. destruct (cstep_static _ _ Hst) as [Hj _].
  destruct Hst as [cs h w i c p' h' w' Hi Hs]. unfold res_inv. cbn [c_calls c_heap] in *.
  intros (Hjobs & Hr). split; [congruence|]. intros j cj Hj' Hend.
  destruct (decide (i = j)) as [<-|Hne].
  - rewrite list_lookup_insert_eq in Hj' by (eapply lookup_lt_Some; exact Hi).
    injection Hj' as <-. cbn [c_phase c_res set_phase] in *. subst p'.
    destruct (call_step_heap _ _ _ _ _ _ Hs) as [[_ Hne] | (r' & Hl & -> & Hz)]; [congruence|].
    exists r'. split; [apply list_lookup_insert_eq, Hl | exact (Hz eq_refl)].
  - rewrite list_lookup_insert_ne in Hj' by exact Hne.
    destruct (Hr j cj Hj' Hend) as (r & Hrj & Hz).
    destruct (call_step_heap _ _ _ _ _ _ Hs) as [[-> _] | (r' & Hl & -> & _)]; [eauto|].
    exists r. split; [|exact Hz]. rewrite list_lookup_insert_ne; [exact Hrj|].
    intros Heq. exact (Hne (res_distinct cs i j c cj Hjobs Hi Hj' Heq)).
Qed.

End Aliasing.

(** ** Theorems *)

(** C23 (safety, by induction on the steps): however concurrent
    [PostJson] calls on one [Body] interleave, once all have returned
    every response body they opened is closed. *)
Theorem concurrent_posts_close jobs h (w0 : world St) g :
  rtc cstep (cstart jobs h w0) g -> all_ended (c_calls g) = true ->
  n_open (w_net (c_world g)) = n_open (w_net w0).
Proof.
  intros Hr He. rewrite (open_inv_reach _ _ _ _ Hr), (holds_body_ended _ He). lia.
Qed.

(** C24 (safety, by induction on the steps): however concurrent
    [PostJson] calls interleave, the network receives nothing but the
    OAuth request of the body's key and secret and the API request of
    one of the calls (its [url?access_token=...] and its bytes), at most
    two requests per call. *)
Theorem concurrent_posts_requests jobs h (w0 : world St) g :
  rtc cstep (cstart jobs h w0) g ->
  exists l, n_log (w_net (c_world g)) = (n_log (w_net w0) ++ l)%list /\
            Forall (req_of w0 jobs) l /\ length l <= 2 * length jobs.
Proof.
  intros Hr. destruct (rtc_invariant cstep _ (log_inv_step w0 jobs) _ _ Hr) as (Hj & _ & _ & l & Hl & Hf & Hlen).
  - split; [apply jobs_of_launch|]. split; [reflexivity|]. split; [reflexivity|].
    exists []. rewrite app_nil_r. split; [reflexivity|]. split; [constructor|].
    cbn [cstart c_calls]. rewrite sum_calls_launch by reflexivity. cbn. lia.
  - exists l. split; [exact Hl|]. split; [exact Hf|].
    pose proof (sum_calls_bound sent_bound 2 (c_calls g)) as Hb.
    rewrite <- Hj. unfold jobs_of. rewrite length_fmap.
    enough (Hc : forall c, sent_bound c <= 2) by (specialize (Hb Hc); lia).
    intros [u v i [[| | | | |]|resp|x]]; cbn; lia.
Qed.

(** C25 (invariant of the interleaving): when concurrent calls were given
    distinct [res] pointers, a call that returned [nil] has a zero
    [ErrorCode] in its [Reply], whatever the other calls did after. *)
Theorem concurrent_posts_reply jobs h (w0 : world St) g i c :
  NoDup (snd <$> jobs) ->
  rtc cstep (cstart jobs h w0) g ->
  c_calls g !! i = Some c -> c_phase c = CEnd (Ok tt) ->
  exists r, c_heap g !! c_res c = Some r /\ ErrorCode (base_reply r) = 0%Z.
Proof.
  intros Hnd Hr. refine (proj2 (rtc_invariant cstep _ (res_inv_step jobs Hnd) _ _ Hr _) i c).
  split; [apply jobs_of_launch|]. intros i' c' Hc. cbn [cstart c_calls] in Hc.
  unfold launch in Hc. rewrite list_lookup_fmap in Hc.
  destruct (jobs !! i'); [injection Hc as <-|discriminate]. discriminate.
Qed.

End WithStorage.

Arguments cfg St : clear implicits.

End Calls.

(** * Concrete interleavings of whole calls *)

Module CallsExamples.
Import Http Token Body BodyExamples Race Calls.

(** An endpoint that grants a token, answers the first API request with
    a success and every later one with error 17. *)
Definition server_seq : list request -> request -> response :=
  fun log rq =>
    if String.prefix "https://aip.baidubce.com/oauth" (rq_url rq) then grant
    else if existsb (fun q => negb (String.prefix "https://aip.baidubce.com/oauth" (rq_url q))) log
    then Resp (BodyBytes body17) else Resp (BodyBytes body_ok).

Definition w_seq : world (option string) := mkWorld (New "k" "s" None) 100 (mkNet server_seq [] 0).

(** Two calls, each with its own [Reply]. *)
Definition jobs_own : list (string * string * nat) := [(api_url, "{}", 0); (api_url, "{}", 1)].

(** The calls alternate step by step. *)
Definition alternate : list nat := [0; 1; 0; 1; 0; 1; 0; 1; 0; 1; 0; 1].

Definition g_own : cfg (option string) := run_cschedule alternate (cstart jobs_own [r0; r0] w_seq).

Lemma concurrent_posts_close_witness :
  all_ended (c_calls g_own) = true /\ n_open (w_net (c_world g_own)) = n_open (w_net w_seq).
Proof.
  assert (He : all_ended (c_calls g_own) = true) by (vm_compute; reflexivity).
  split; [exact He | exact (concurrent_posts_close _ _ _ _ (run_cschedule_rtc _ _) He)].
Defined.

Lemma concurrent_posts_requests_witness :
  exists l, n_log (w_net (c_world g_own)) = (n_log (w_net w_seq) ++ l)%list /\
            Forall (req_of w_seq jobs_own) l /\ length l <= 2 * length jobs_own.
Proof. exact (concurrent_posts_requests _ _ _ _ (run_cschedule_rtc _ _)). Defined.

Lemma concurrent_posts_reply_witness :
  NoDup (snd <$> jobs_own) /\
  c_calls g_own !! 0 = Some (mkCall api_url "{}" 0 (CEnd (Ok tt))) /\
  exists r, c_heap g_own !! 0 = Some r /\ ErrorCode (base_reply r) = 0%Z.
Proof.
  assert (Hnd : NoDup (snd <$> jobs_own)) by (apply (bool_decide_unpack _); vm_compute; exact I).
  assert (Hc : c_calls g_own !! 0 = Some (mkCall api_url "{}" 0 (CEnd (Ok tt)))) by (vm_compute; reflexivity).
  split; [exact Hnd|]. split; [exact Hc|].
  exact (concurrent_posts_reply _ _ _ _ 0 _ Hnd (run_cschedule_rtc _ _) Hc eq_refl).
Defined.

End CallsExamples.
